(** * rag_challenge: the Streamlit question-answering page (app.py)

    A shallow embedding of [app.py]: Python strings as lists of Unicode code
    points, the builtin string methods the script calls ([str.replace],
    [str.strip]) with CPython's behaviour, and the script itself as a
    state-passing program over a process state (the [st.cache_resource]
    cache and the log of effects on storage, on the pipeline and on the
    page). *)

From Stdlib Require Import String Ascii.
From Stdlib Require Import List NArith Arith Bool Lia.
Import ListNotations.

(** ** Python strings *)

Module PyStr.

(** A Python [str] is a sequence of Unicode code points. *)
Definition char := N.
Definition str := list char.

(** ASCII literals of the script, written as Rocq strings. *)
Definition lit (s : string) : str := map N_of_ascii (list_ascii_of_string s).

Definition ch_tab : char := 9%N.
Definition ch_nl : char := 10%N.
Definition ch_space : char := 32%N.
Definition ch_apos : char := 39%N.
Definition ch_rparen : char := 41%N.
Definition ch_colon : char := 58%N.

(** [s.startswith(p)] *)
Fixpoint starts_with (p s : str) : bool :=
  match p, s with
  | [], _ => true
  | _ :: _, [] => false
  | a :: p', b :: s' => (a =? b)%N && starts_with p' s'
  end.

(** [p in s]: [p] occurs at some position of [s]. *)
Fixpoint occurs (p s : str) : bool :=
  starts_with p s ||
  match s with
  | [] => false
  | _ :: s' => occurs p s'
  end.

(** The number of positions of [s] at which [p] occurs. *)
Fixpoint occurrences (p s : str) : nat :=
  (if starts_with p s then 1 else 0) +
  match s with
  | [] => 0
  | _ :: s' => occurrences p s'
  end.

(** [s.replace(old, new)]: CPython scans [s] from the left, replaces the
    first occurrence of [old] it finds and resumes the search behind that
    occurrence, so the occurrences it replaces do not overlap.  [skip] is
    the number of characters of the occurrence just replaced that are still
    to be passed over. *)
Fixpoint replace_from (old new : str) (skip : nat) (s : str) : str :=
  match s with
  | [] => []
  | c :: s' =>
      match skip with
      | S k => replace_from old new k s'
      | O =>
          if starts_with old s
          then new ++ replace_from old new (length old - 1) s'
          else c :: replace_from old new 0 s'
      end
  end.

(** With an empty [old], Python puts [new] in front of every character and
    at the end. *)
Definition str_replace (old new s : str) : str :=
  match old with
  | [] => new ++ flat_map (fun c => c :: new) s
  | _ :: _ => replace_from old new 0 s
  end.

(** [c.isspace()], the characters [str.strip()] removes: CPython's
    [_PyUnicode_IsWhitespace]. *)
Definition is_space (c : char) : bool :=
  (((9 <=? c) && (c <=? 13)) || ((28 <=? c) && (c <=? 32))
   || (c =? 133) || (c =? 160) || (c =? 5760)
   || ((8192 <=? c) && (c <=? 8202))
   || (c =? 8232) || (c =? 8233) || (c =? 8239) || (c =? 8287)
   || (c =? 12288))%N.

(** The length of the run of whitespace [s] starts with. *)
Fixpoint leading_spaces (s : str) : nat :=
  match s with
  | [] => 0
  | c :: s' => if is_space c then S (leading_spaces s') else 0
  end.

(** [s[i:j]] for [0 <= i] and [0 <= j]. *)
Definition substring (i j : nat) (s : str) : str := firstn (j - i) (skipn i s).

(** [s.strip()]: CPython's [do_strip] moves an index [i] from the left past
    the whitespace, then an index [j] from the right down to [i] at most,
    and returns [s[i:j]]. *)
Definition str_strip (s : str) : str :=
  let i := leading_spaces s in
  let j := length s - leading_spaces (rev (skipn i s)) in
  substring i j s.

End PyStr.

Import PyStr.
Local Open Scope N_scope.

(** ** The answer formatter (app.py, lines 26-31) *)

Definition quotesingle : str := lit "/quotesingle.ts1".
Definition apostrophe : str := [ch_apos].
Definition colon_space : str := [ch_colon; ch_space].
Definition colon_nl_tab : str := [ch_colon; ch_nl; ch_tab].
Definition rparen_space : str := [ch_rparen; ch_space].
Definition rparen_nl_tab : str := [ch_rparen; ch_nl; ch_tab].

(** [answer.replace("/quotesingle.ts1", "'").replace(": ", ":\n\t")
          .replace(") ", ")\n\t").strip()] *)
Definition clean_answer (answer : str) : str :=
  str_strip
    (str_replace rparen_space rparen_nl_tab
       (str_replace colon_space colon_nl_tab
          (str_replace quotesingle apostrophe answer))).

(** ** The intermediate values of the method chain *)

Definition chain1 (answer : str) : str :=
  str_replace quotesingle apostrophe answer.
Definition chain2 (answer : str) : str :=
  str_replace colon_space colon_nl_tab (chain1 answer).
Definition chain3 (answer : str) : str :=
  str_replace rparen_space rparen_nl_tab (chain2 answer).

(** ** The formatter as the specification words it *)

(** "Replace every occurrence": at every position of the text where the
    token occurs, the replacement is written and the characters of that
    occurrence are dropped, whether or not an earlier occurrence covers the
    position.  [covered] counts the characters still covered by the last
    occurrence seen. *)
Fixpoint replace_every_from (old new : str) (covered : nat) (s : str) : str :=
  match s with
  | [] => []
  | c :: s' =>
      if starts_with old s
      then new ++ replace_every_from old new (length old - 1) s'
      else match covered with
           | S k => replace_every_from old new k s'
           | O => c :: replace_every_from old new 0 s'
           end
  end.

Definition replace_every (old new s : str) : str :=
  replace_every_from old new 0 s.

(** "Strip leading and trailing whitespace". *)
Fixpoint lstrip (s : str) : str :=
  match s with
  | [] => []
  | c :: s' => if is_space c then lstrip s' else s
  end.

Definition rstrip (s : str) : str := rev (lstrip (rev s)).

Definition strip_both (s : str) : str := rstrip (lstrip s).

Definition spec_step1 (s : str) : str := replace_every quotesingle apostrophe s.
Definition spec_step2 (s : str) : str := replace_every colon_space colon_nl_tab s.
Definition spec_step3 (s : str) : str := replace_every rparen_space rparen_nl_tab s.
Definition spec_step4 (s : str) : str := strip_both s.

Definition spec_formatter (s : str) : str :=
  spec_step4 (spec_step3 (spec_step2 (spec_step1 s))).

(** ** Predicates on strings used in the statements *)

(** A string is borderless when none of its proper non-empty suffixes is a
    prefix of it: two occurrences of it cannot overlap. *)
Definition borderless (old : str) : bool :=
  forallb (fun k => negb (starts_with (skipn k old) old))
          (seq 1 (length old - 1)).

(** [c in s] *)
Definition mem (c : char) (s : str) : bool := existsb (N.eqb c) s.

(** No character of [p] is a character of [q]. *)
Definition no_common_char (p q : str) : bool :=
  forallb (fun c => negb (mem c q)) p.

(** The first character of [s] is whitespace. *)
Definition hd_space (s : str) : bool :=
  match s with
  | [] => false
  | c :: _ => is_space c
  end.

(** The strings of the third scenario. *)
Definition dont_token : str := lit "don/quotesingle.ts1t".
Definition dont : str := lit "don't".

(** The last character of [m] is whitespace. *)
Fixpoint ends_space (m : str) : bool :=
  match m with
  | [] => false
  | c :: m' =>
      match m' with
      | [] => is_space c
      | _ :: _ => ends_space m'
      end
  end.

(** The last character [str.strip] keeps is the colon of a [":\n\t"] whose
    newline and tab it cuts. *)
Definition cut_by_strip (t : str) : bool :=
  starts_with colon_nl_tab (skipn (length (str_strip t) - 1) (lstrip t)).

(** ** The script as a state-passing program *)

Module App.

(** Python values the script meets in a response: a [str], or an object
    without a [replace] method. *)
Inductive value :=
| VStr (s : str)
| VOther.

(** A dict with string keys. *)
Definition dict := list (string * value).

Fixpoint dict_get (k : string) (d : dict) : option value :=
  match d with
  | [] => None
  | (k', v) :: d' => if String.eqb k k' then Some v else dict_get k d'
  end.

Inductive exn :=
| FileNotFoundError
| UnpicklingError
| KeyError (key : string)
| AttributeError (name : string)
| PipelineError (code : nat).

Inductive outcome (A : Type) :=
| Return (a : A)
| Raise (e : exn).
Arguments Return {A} a.
Arguments Raise {A} e.

(** The pickled pipeline: what its [invoke] method does with the argument
    on its [n]-th call. *)
Record chain := { chain_invoke : nat -> dict -> outcome dict }.

(** What is at "./data/model/qa_chain.pkl". *)
Inductive file :=
| Garbage
| Pickle (c : chain).
Definition disk := option file.

(** An object in memory: [pickle.load] makes a new one on every call. *)
Record artifact := { art_id : nat; art_chain : chain }.

Inductive event :=
| EvOpen
| EvUnpickle (id : nat)
| EvInvoke (id : nat) (arg : dict)
| EvTitle (text : string)
| EvWrite (text : string)
| EvTextInput (label : string)
| EvSpinnerEnter (text : string)
| EvSpinnerExit
| EvSubheader (text : string)
| EvCode (body : str) (language : string).

(** The process: the [st.cache_resource] entry of [load_qa_chain], the
    number of objects unpickled and of pipeline calls so far, and the
    effects in the order they happened. *)
Record process := {
  cache : option artifact;
  loads : nat;
  calls : nat;
  log : list event
}.

Definition init : process :=
  {| cache := None; loads := 0; calls := 0; log := [] |}.

Definition M (A : Type) : Type := process -> outcome A * process.

Definition ret {A : Type} (a : A) : M A := fun st => (Return a, st).

Definition raise {A : Type} (e : exn) : M A := fun st => (Raise e, st).

Definition bind {A B : Type} (c : M A) (k : A -> M B) : M B :=
  fun st =>
    match c st with
    | (Return a, st') => k a st'
    | (Raise e, st') => (Raise e, st')
    end.

Notation "x <- c ;; k" := (bind c (fun x => k))
  (at level 61, c at next level, right associativity).
Notation "c ;; k" := (bind c (fun _ => k))
  (at level 61, right associativity).

Definition emit (e : event) : M unit :=
  fun st =>
    (Return tt,
     {| cache := cache st; loads := loads st; calls := calls st;
        log := log st ++ [e] |}).

(** [open("./data/model/qa_chain.pkl", "rb")] *)
Definition open_rb (d : disk) : M file :=
  match d with
  | None => raise FileNotFoundError
  | Some f => emit EvOpen ;; ret f
  end.

(** [pickle.load(f)] *)
Definition pickle_load (f : file) : M artifact :=
  match f with
  | Garbage => raise UnpicklingError
  | Pickle c =>
      fun st =>
        (Return {| art_id := loads st; art_chain := c |},
         {| cache := cache st; loads := S (loads st); calls := calls st;
            log := log st ++ [EvUnpickle (loads st)] |})
  end.

(** The body of [load_qa_chain] (app.py, lines 11-12). *)
Definition load_qa_chain_body (d : disk) : M artifact :=
  f <- open_rb d ;;
  pickle_load f.

(** [@st.cache_resource]: the first call that returns stores what it
    returns; a later call returns the stored object and does not run the
    body.  A call that raises stores nothing. *)
Definition cache_resource (body : M artifact) : M artifact :=
  fun st =>
    match cache st with
    | Some a => (Return a, st)
    | None =>
        match body st with
        | (Return a, st') =>
            (Return a,
             {| cache := Some a; loads := loads st'; calls := calls st';
                log := log st' |})
        | (Raise e, st') => (Raise e, st')
        end
    end.

Definition load_qa_chain (d : disk) : M artifact :=
  cache_resource (load_qa_chain_body d).

(** [qa_chain.invoke(arg)] *)
Definition invoke (qa_chain : artifact) (arg : dict) : M dict :=
  fun st =>
    let st' :=
      {| cache := cache st; loads := loads st; calls := S (calls st);
         log := log st ++ [EvInvoke (art_id qa_chain) arg] |} in
    match chain_invoke (art_chain qa_chain) (calls st) arg with
    | Return response => (Return response, st')
    | Raise e => (Raise e, st')
    end.

(** [d[k]] *)
Definition getitem (d : dict) (k : string) : M value :=
  match dict_get k d with
  | Some v => ret v
  | None => raise (KeyError k)
  end.

(** The method chain of lines 26-31 on the value found under "result". *)
Definition format (answer : value) : M str :=
  match answer with
  | VStr s => ret (clean_answer s)
  | VOther => raise (AttributeError "replace")
  end.

(** [with st.spinner(text): body]: the spinner is taken down when the body
    returns and when it raises, and an exception goes on. *)
Definition with_spinner {A : Type} (text : string) (body : M A) : M A :=
  fun st =>
    match (emit (EvSpinnerEnter text) ;; body) st with
    | (r, st') => (r, snd (emit EvSpinnerExit st'))
    end.

(** Truth value of a [str]: [if query:]. *)
Definition truthy (s : str) : bool :=
  match s with
  | [] => false
  | _ :: _ => true
  end.

(** app.py, lines 20-35. *)
Definition handle_query (qa_chain : artifact) (query : str) : M unit :=
  if truthy query then
    with_spinner "Retrieving and generating an answer..."
      (response <- invoke qa_chain [("query"%string, VStr query)] ;;
       answer <- getitem response "result" ;;
       clean <- format answer ;;
       emit (EvSubheader "Answer:") ;;
       emit (EvCode clean "python"))
  else ret tt.

(** One run of the script, with [query] what the text input holds. *)
Definition script (d : disk) (query : str) : M unit :=
  emit (EvTitle "Question Answering System") ;;
  emit (EvWrite "Ask a question, and the system will provide an answer based on the indexed documents.") ;;
  qa_chain <- load_qa_chain d ;;
  emit (EvTextInput "Enter your question:") ;;
  handle_query qa_chain query.

(** Streamlit runs the script again on every interaction, in the same
    process; an exception ends the run, not the process. *)
Definition rerun (st : process) (r : disk * str) : process :=
  snd (script (fst r) (snd r) st).

Definition run_all (runs : list (disk * str)) (st : process) : process :=
  fold_left rerun runs st.

(** Projections of the log. *)
Definition is_storage (e : event) : bool :=
  match e with
  | EvOpen | EvUnpickle _ => true
  | _ => false
  end.

Definition storage_events (l : list event) : list event := filter is_storage l.

Definition is_unpickle (e : event) : bool :=
  match e with
  | EvUnpickle _ => true
  | _ => false
  end.

Definition unpickles (l : list event) : nat := length (filter is_unpickle l).

Fixpoint invoked (l : list event) : list (nat * dict) :=
  match l with
  | [] => []
  | EvInvoke id arg :: l' => (id, arg) :: invoked l'
  | _ :: l' => invoked l'
  end.

Fixpoint answers (l : list event) : list event :=
  match l with
  | [] => []
  | EvSubheader t :: l' => EvSubheader t :: answers l'
  | EvCode b lang :: l' => EvCode b lang :: answers l'
  | _ :: l' => answers l'
  end.

End App.

Import App.

Definition query_arg (query : str) : dict := [("query"%string, VStr query)].

Definition spinner_text : string := "Retrieving and generating an answer...".

(** The state after the handler called the pipeline once and wrote [evs]
    behind the call. *)
Definition after_call (st : process) (qa_chain : artifact) (query : str)
    (evs : list event) : process :=
  {| cache := cache st; loads := loads st; calls := S (calls st);
     log := log st
            ++ [EvSpinnerEnter spinner_text;
                EvInvoke (art_id qa_chain) (query_arg query)]
            ++ evs ++ [EvSpinnerExit] |}.

(** The page the script draws before it looks at the query. *)
Definition page_head : list event :=
  [EvTitle "Question Answering System";
   EvWrite "Ask a question, and the system will provide an answer based on the indexed documents."].

Definition with_log (st : process) (l : list event) : process :=
  {| cache := cache st; loads := loads st; calls := calls st; log := l |}.

(** What the log of a process looks like: the storage was opened some
    number of times without success, then at most once with success, and
    never since; every call of the pipeline went to the object in the
    cache. *)
Definition loaded_once (st : process) : Prop :=
  match cache st with
  | None =>
      (exists k, storage_events (log st) = repeat EvOpen k)
      /\ invoked (log st) = []
  | Some a =>
      (exists k, storage_events (log st)
                 = repeat EvOpen k ++ [EvUnpickle (art_id a)])
      /\ Forall (fun ia => fst ia = art_id a) (invoked (log st))
  end.

(** The state in which the loader is called, and the one in which the
    handler is. *)
Definition before_load (st : process) : process :=
  with_log st (log st ++ page_head).

Definition at_input (st : process) : process :=
  with_log st (log st ++ [EvTextInput "Enter your question:"]).

(** Three pipelines: one that answers every query with the same text, one
    that raises, and one whose response has no "result". *)
Definition answering_chain (answer : str) : chain :=
  {| chain_invoke := fun _ _ => Return [("result"%string, VStr answer)] |}.

Definition raising_chain (code : nat) : chain :=
  {| chain_invoke := fun _ _ => Raise (PipelineError code) |}.

Definition silent_chain : chain :=
  {| chain_invoke := fun _ _ => Return [("source_documents"%string, VOther)] |}.

(** ** Further notions used in the statements *)

(** The characters of [s] that are not whitespace, in order. *)
Definition visible (s : str) : str := filter (fun c => negb (is_space c)) s.

(** [s] is empty or holds whitespace only. *)
Definition blank (s : str) : bool := forallb is_space s.

(** The three substitutions of the method chain, each on its own. *)
Definition sub_quote (s : str) : str := str_replace quotesingle apostrophe s.
Definition sub_colon (s : str) : str := str_replace colon_space colon_nl_tab s.
Definition sub_rparen (s : str) : str := str_replace rparen_space rparen_nl_tab s.

(** What the script draws for the answer [r] (app.py, lines 34-35). *)
Definition drawn_answer (r : str) : list event :=
  [EvSubheader "Answer:"; EvCode (clean_answer r) "python"].

Definition is_spinner_enter (e : event) : bool :=
  match e with
  | EvSpinnerEnter _ => true
  | _ => false
  end.

Definition is_spinner_exit (e : event) : bool :=
  match e with
  | EvSpinnerExit => true
  | _ => false
  end.

(** The number of spinners put up less the number taken down, read along
    the log; [None] when one is taken down that was not up, or a second one
    is put up. *)
Fixpoint spinner_up (up : bool) (l : list event) : option bool :=
  match l with
  | [] => Some up
  | EvSpinnerEnter _ :: l' => if up then None else spinner_up true l'
  | EvSpinnerExit :: l' => if up then spinner_up false l' else None
  | _ :: l' => spinner_up up l'
  end.

(** The code blocks of a log, each with its language. *)
Fixpoint code_blocks (l : list event) : list (str * string) :=
  match l with
  | [] => []
  | EvCode b lang :: l' => (b, lang) :: code_blocks l'
  | _ :: l' => code_blocks l'
  end.

(** A pipeline whose "result" is not a string. *)
Definition odd_chain : chain :=
  {| chain_invoke := fun _ _ => Return [("result"%string, VOther)] |}.

(** ** Scenarios *)

Example scenario_1 :
  clean_answer (lit "The capital is Paris. Reason: it is large.")
  = lit "The capital is Paris. Reason:" ++ [ch_nl; ch_tab] ++ lit "it is large.".
Proof. reflexivity. Qed.

Example scenario_2 :
  clean_answer (lit "(see above) Also note...")
  = lit "(see above)" ++ [ch_nl; ch_tab] ++ lit "Also note...".
Proof. reflexivity. Qed.

Example scenario_3 :
  clean_answer (lit "I don/quotesingle.ts1t know ") = lit "I don't know".
Proof. reflexivity. Qed.

(** ** Prefixes and occurrences *)

Lemma starts_with_nil (s : str) : starts_with [] s = true.
Proof. destruct s; reflexivity. Qed.

Lemma starts_with_app (p s : str) : starts_with p (p ++ s) = true.
Proof.
  induction p as [|a p IH]; simpl.
  - reflexivity.
  - now rewrite N.eqb_refl.
Qed.

Lemma starts_with_split (p s : str) :
  starts_with p s = true -> s = p ++ skipn (length p) s.
Proof.
  revert s; induction p as [|a p IH]; intros [|b s] H; simpl in *;
    try reflexivity; try discriminate.
  apply andb_true_iff in H as [Hab Hp].
  apply N.eqb_eq in Hab; subst b.
  f_equal; now apply IH.
Qed.

Lemma starts_with_iff (p s : str) :
  starts_with p s = true <-> exists r, s = p ++ r.
Proof.
  split.
  - intros H; eexists; now apply starts_with_split.
  - intros [r ->]; apply starts_with_app.
Qed.

Lemma starts_with_cons (a b : char) (p s : str) :
  starts_with (a :: p) (b :: s) = true <-> a = b /\ starts_with p s = true.
Proof.
  simpl; rewrite andb_true_iff, N.eqb_eq; tauto.
Qed.

(** A prefix of a prefix. *)
Lemma starts_with_app_l (p q s : str) :
  starts_with (p ++ q) s = true -> starts_with p s = true.
Proof.
  rewrite !starts_with_iff; intros [r ->].
  exists (q ++ r); now rewrite app_assoc.
Qed.

Lemma starts_with_length (p s : str) :
  starts_with p s = true -> (length p <= length s)%nat.
Proof.
  rewrite starts_with_iff; intros [r ->]; rewrite length_app; lia.
Qed.

(** Two prefixes of one string: the shorter one is a prefix of the longer. *)
Lemma starts_with_both (p q s : str) :
  starts_with p s = true -> starts_with q s = true ->
  (length p <= length q)%nat -> starts_with p q = true.
Proof.
  revert q s; induction p as [|a p IH]; intros q s Hp Hq Hlen.
  - apply starts_with_nil.
  - destruct q as [|b q]; [simpl in Hlen; lia|].
    destruct s as [|c s]; [discriminate|].
    apply starts_with_cons in Hp as [-> Hp].
    apply starts_with_cons in Hq as [-> Hq].
    apply starts_with_cons; split; [reflexivity|].
    apply (IH q s); auto; simpl in Hlen; lia.
Qed.

Lemma occurs_nil (s : str) : occurs [] s = true.
Proof. destruct s; reflexivity. Qed.

Lemma occurs_cons (p : str) (c : char) (s : str) :
  occurs p (c :: s) = starts_with p (c :: s) || occurs p s.
Proof. reflexivity. Qed.

Lemma occurs_starts (p s : str) :
  starts_with p s = true -> occurs p s = true.
Proof. intros H; destruct s; simpl in *; rewrite H; reflexivity. Qed.

Lemma occurs_iff (p s : str) :
  occurs p s = true <-> exists l r, s = l ++ p ++ r.
Proof.
  split.
  - induction s as [|c s IH]; simpl.
    + rewrite orb_false_r; intros H.
      apply starts_with_iff in H as [r Hr]; now exists [], r.
    + intros H; apply orb_true_iff in H as [H|H].
      * apply starts_with_iff in H as [r Hr]; now exists [], r.
      * destruct (IH H) as (l & r & ->); now exists (c :: l), r.
  - intros (l & r & ->).
    induction l as [|c l IH].
    + cbn [app]; apply occurs_starts, starts_with_app.
    + simpl app; rewrite occurs_cons, IH; apply orb_true_r.
Qed.

Lemma occurs_app_r (p l s : str) :
  occurs p s = true -> occurs p (l ++ s) = true.
Proof.
  rewrite !occurs_iff; intros (l' & r & ->).
  exists (l ++ l'), r; now rewrite <- app_assoc.
Qed.

Lemma occurs_app_l (p s r : str) :
  occurs p s = true -> occurs p (s ++ r) = true.
Proof.
  rewrite !occurs_iff; intros (l & r' & ->).
  exists l, (r' ++ r); now rewrite <- !app_assoc.
Qed.

Lemma not_occurs_cons (p : str) (c : char) (s : str) :
  occurs p (c :: s) = false ->
  starts_with p (c :: s) = false /\ occurs p s = false.
Proof. rewrite occurs_cons; apply orb_false_iff. Qed.

Lemma not_occurs_app_r (p l s : str) :
  occurs p (l ++ s) = false -> occurs p s = false.
Proof.
  intros H; destruct (occurs p s) eqn:E; [|reflexivity].
  now rewrite (occurs_app_r p l s E) in H.
Qed.

Lemma not_occurs_app_l (p s r : str) :
  occurs p (s ++ r) = false -> occurs p s = false.
Proof.
  intros H; destruct (occurs p s) eqn:E; [|reflexivity].
  now rewrite (occurs_app_l p s r E) in H.
Qed.

(** An occurrence in [l ++ s] that does not start inside [l] is one in [s]. *)
Lemma occurs_skip_prefix (p l s : str) (a : char) (p' : str) :
  p = a :: p' -> ~ In a l ->
  occurs p (l ++ s) = occurs p s.
Proof.
  intros -> Hnot.
  induction l as [|c l IH]; [reflexivity|].
  simpl app; rewrite occurs_cons, IH.
  - simpl. destruct (N.eqb_spec a c) as [->|_]; [|reflexivity].
    exfalso; apply Hnot; now left.
  - intros Hin; apply Hnot; now right.
Qed.

(** ** [str.replace] with a non-empty search string *)

Section Replace.

Variables old new : str.
Hypothesis old_nonempty : old <> [].

Lemma str_replace_eq (s : str) :
  str_replace old new s = replace_from old new 0 s.
Proof. unfold str_replace; destruct old; [contradiction | reflexivity]. Qed.

Lemma replace_from_skip (k : nat) (s : str) :
  replace_from old new k s = replace_from old new 0 (skipn k s).
Proof.
  revert k; induction s as [|c s IH]; intros [|k]; try reflexivity.
  simpl skipn; rewrite <- IH; reflexivity.
Qed.

Lemma str_replace_nil : str_replace old new [] = [].
Proof. now rewrite str_replace_eq. Qed.

(** No occurrence at the head: the head is copied. *)
Lemma str_replace_miss (c : char) (s : str) :
  starts_with old (c :: s) = false ->
  str_replace old new (c :: s) = c :: str_replace old new s.
Proof.
  intros H; rewrite !str_replace_eq.
  cbn [replace_from]; now rewrite H.
Qed.

(** An occurrence at the head: it is replaced and the scan resumes behind it. *)
Lemma str_replace_found (s : str) :
  starts_with old s = true ->
  str_replace old new s = new ++ str_replace old new (skipn (length old) s).
Proof.
  intros H; rewrite !str_replace_eq.
  assert (Hlen : (0 < length old)%nat)
    by (destruct old; [contradiction | simpl; lia]).
  destruct s as [|c s].
  - apply starts_with_length in H; simpl in H; lia.
  - cbn [replace_from]; rewrite H, replace_from_skip.
    replace (length old) with (S (length old - 1)) at 2 by lia.
    reflexivity.
Qed.

Lemma str_replace_hit (r : str) :
  str_replace old new (old ++ r) = new ++ str_replace old new r.
Proof.
  rewrite str_replace_found by apply starts_with_app.
  now rewrite skipn_app, skipn_all, Nat.sub_diag.
Qed.

(** Induction along the scan of [str.replace]. *)
Lemma replace_ind (P : str -> Prop) :
  P [] ->
  (forall c s, starts_with old (c :: s) = false -> P s -> P (c :: s)) ->
  (forall r, P r -> P (old ++ r)) ->
  forall s, P s.
Proof.
  intros Hnil Hmiss Hhit s.
  remember (length s) as n eqn:Hn.
  revert s Hn; induction n as [n IH] using lt_wf_ind; intros s Hn.
  destruct s as [|c s]; [exact Hnil|].
  destruct (starts_with old (c :: s)) eqn:E.
  - rewrite (starts_with_split _ _ E).
    apply Hhit.
    apply (IH (length (skipn (length old) (c :: s)))); [|reflexivity].
    rewrite length_skipn; subst n.
    destruct old; [contradiction | simpl; lia].
  - apply Hmiss; [exact E|].
    apply (IH (length s)); [subst n; simpl; lia | reflexivity].
Qed.

(** Without an occurrence of [old] the string comes back as it is. *)
Lemma str_replace_absent (s : str) :
  occurs old s = false -> str_replace old new s = s.
Proof.
  induction s as [|c s IH]; intros H.
  - apply str_replace_nil.
  - apply not_occurs_cons in H as [H1 H2].
    rewrite str_replace_miss by exact H1.
    now rewrite IH.
Qed.

(** The first character of the result. *)
Lemma str_replace_head (s : str) :
  hd_error (str_replace old new s)
  = if starts_with old s
    then hd_error (new ++ str_replace old new (skipn (length old) s))
    else hd_error s.
Proof.
  destruct (starts_with old s) eqn:E.
  - rewrite (starts_with_split _ _ E) at 1.
    now rewrite str_replace_hit.
  - destruct s as [|c s]; [now rewrite str_replace_nil|].
    now rewrite str_replace_miss.
Qed.

End Replace.

(** ** Replacing every occurrence of a borderless token *)

(** The two readings of "replace" differ where occurrences overlap. *)
Example replace_overlapping :
  str_replace (lit "aa") (lit "b") (lit "aaa") = lit "ba" /\
  replace_every (lit "aa") (lit "b") (lit "aaa") = lit "bb".
Proof. split; reflexivity. Qed.

Lemma borderless_spec (old : str) (k : nat) :
  borderless old = true -> (0 < k < length old)%nat ->
  starts_with (skipn k old) old = false.
Proof.
  unfold borderless; rewrite forallb_forall; intros H Hk.
  apply negb_true_iff, H, in_seq; lia.
Qed.

Lemma skipn_cons_nth (l : str) (n : nat) :
  (n < length l)%nat -> exists x, skipn n l = x :: skipn (S n) l.
Proof.
  revert n; induction l as [|a l IH]; intros n Hn; [simpl in Hn; lia|].
  destruct n as [|n]; [now exists a|].
  apply IH; simpl in Hn; lia.
Qed.

Section ReplaceEvery.

Variables old new : str.
Hypothesis old_borderless : borderless old = true.

(** Inside an occurrence of a borderless token no other occurrence starts,
    so the scan of [str.replace] passes over no occurrence. *)
Lemma replace_every_from_eq (s : str) (k : nat) :
  (k < length old)%nat ->
  starts_with (skipn (length old - k) old) s = true ->
  replace_every_from old new k s = replace_from old new k s.
Proof.
  revert k; induction s as [|c s IH]; intros k Hk Hs; [reflexivity|].
  destruct k as [|k]; cbn [replace_every_from replace_from].
  - destruct (starts_with old (c :: s)) eqn:E.
    + f_equal; apply IH; [lia|].
      replace (length old - (length old - 1))%nat with 1%nat by lia.
      destruct old as [|o old']; [simpl in Hk; lia|].
      now apply starts_with_cons in E as [_ E].
    + f_equal; apply IH; [lia|].
      now rewrite Nat.sub_0_r, skipn_all.
  - destruct (starts_with old (c :: s)) eqn:E.
    + exfalso.
      assert (Hb : starts_with (skipn (length old - S k) old) old = true).
      { apply (starts_with_both _ _ (c :: s)); auto.
        rewrite length_skipn; lia. }
      rewrite borderless_spec in Hb by (auto; lia); discriminate.
    + apply IH; [lia|].
      destruct (skipn_cons_nth old (length old - S k)) as [x Hx]; [lia|].
      rewrite Hx in Hs.
      apply starts_with_cons in Hs as [_ Hs].
      now replace (length old - k)%nat with (S (length old - S k)) by lia.
Qed.

Lemma replace_every_eq (s : str) :
  old <> [] -> replace_every old new s = str_replace old new s.
Proof.
  intros Hne; rewrite str_replace_eq by exact Hne.
  apply replace_every_from_eq.
  - destruct old; [contradiction | simpl; lia].
  - now rewrite Nat.sub_0_r, skipn_all.
Qed.

End ReplaceEvery.

Lemma quotesingle_borderless : borderless quotesingle = true.
Proof. reflexivity. Qed.

Lemma colon_space_borderless : borderless colon_space = true.
Proof. reflexivity. Qed.

Lemma rparen_space_borderless : borderless rparen_space = true.
Proof. reflexivity. Qed.

(** ** [str.strip] *)

Lemma lstrip_skipn (s : str) : lstrip s = skipn (leading_spaces s) s.
Proof.
  induction s as [|c s IH]; [reflexivity|].
  simpl; destruct (is_space c); [exact IH | reflexivity].
Qed.

Lemma rstrip_firstn (s : str) :
  rstrip s = firstn (length s - leading_spaces (rev s)) s.
Proof.
  unfold rstrip; rewrite lstrip_skipn, skipn_rev, rev_involutive; reflexivity.
Qed.

(** The index walk of CPython's [do_strip] cuts the leading and then the
    trailing whitespace. *)
Lemma str_strip_eq (s : str) : str_strip s = strip_both s.
Proof.
  unfold str_strip, strip_both, substring.
  rewrite rstrip_firstn, lstrip_skipn, length_skipn.
  f_equal; lia.
Qed.

(** ** What a replacement can and cannot introduce *)

Lemma mem_In (c : char) (s : str) : mem c s = true <-> In c s.
Proof.
  unfold mem; rewrite existsb_exists; split.
  - intros (x & Hin & Hx); apply N.eqb_eq in Hx; now subst.
  - intros Hin; exists c; split; [exact Hin | apply N.eqb_refl].
Qed.

Lemma no_common_char_In (p q : str) (c : char) :
  no_common_char p q = true -> In c p -> ~ In c q.
Proof.
  unfold no_common_char; rewrite forallb_forall; intros H Hp Hq.
  apply H in Hp; apply mem_In in Hq; rewrite Hq in Hp; discriminate.
Qed.

Section ReplaceOccurrences.

Variables old new : str.
Variables o n : char.
Hypothesis old_hd : hd_error old = Some o.
Hypothesis new_hd : hd_error new = Some n.

Let f := str_replace old new.

Lemma old_nonempty : old <> [].
Proof. intros E; rewrite E in old_hd; discriminate. Qed.

(** A prefix of the result that does not contain the first character of
    [new] lies before the first replacement: it is a prefix of the
    argument. *)
Lemma starts_with_replace_inv (s : str) :
  forall p, ~ In n p ->
  starts_with p (f s) = true -> starts_with p s = true.
Proof.
  unfold f.
  induction s as [|c s Hmiss IHs|r IHs] using (replace_ind old old_nonempty);
    intros p Hp H.
  - now rewrite str_replace_nil in H by apply old_nonempty.
  - rewrite str_replace_miss in H by (apply old_nonempty || assumption).
    destruct p as [|a p]; [reflexivity|].
    apply starts_with_cons in H as [-> H].
    apply starts_with_cons; split; [reflexivity|].
    apply IHs; [|exact H].
    intros Hin; apply Hp; now right.
  - rewrite str_replace_hit in H by apply old_nonempty.
    destruct p as [|a p]; [apply starts_with_nil|].
    destruct new as [|n' new']; [discriminate|].
    injection new_hd as ->.
    apply starts_with_cons in H as [-> _].
    exfalso; apply Hp; now left.
Qed.

(** A prefix of the argument that does not contain the first character of
    [old] is a prefix of the result. *)
Lemma starts_with_replace (s : str) :
  forall p, ~ In o p ->
  starts_with p s = true -> starts_with p (f s) = true.
Proof.
  unfold f.
  induction s as [|c s Hmiss IHs|r IHs] using (replace_ind old old_nonempty);
    intros p Hp H.
  - now rewrite str_replace_nil by apply old_nonempty.
  - rewrite str_replace_miss by (apply old_nonempty || assumption).
    destruct p as [|a p]; [reflexivity|].
    apply starts_with_cons in H as [-> H].
    apply starts_with_cons; split; [reflexivity|].
    apply IHs; [|exact H].
    intros Hin; apply Hp; now right.
  - destruct p as [|a p]; [apply starts_with_nil|].
    destruct old as [|o' old']; [discriminate|].
    injection old_hd as ->.
    apply starts_with_cons in H as [-> _].
    exfalso; apply Hp; now left.
Qed.

(** A string [p] that shares no character with [new] is not in the result
    when it is the token replaced, or is not in the argument. *)
Lemma not_occurs_replace (p s : str) :
  p <> [] -> no_common_char p new = true ->
  p = old \/ occurs p s = false ->
  occurs p (f s) = false.
Proof.
  intros Hne Hp; unfold f.
  assert (Hn : ~ In n p).
  { intros Hin; apply (no_common_char_In p new n Hp Hin).
    destruct new; [discriminate | injection new_hd as ->; now left]. }
  destruct p as [|a p'] eqn:Ep; [contradiction|]; rewrite <- Ep in *.
  induction s as [|c s Hmiss IHs|r IHs] using (replace_ind old old_nonempty);
    intros Hs.
  - rewrite str_replace_nil by apply old_nonempty; now rewrite Ep.
  - rewrite str_replace_miss by (apply old_nonempty || assumption).
    rewrite occurs_cons; apply orb_false_iff; split.
    + destruct (starts_with p (c :: str_replace old new s)) eqn:E; [|reflexivity].
      assert (E' : starts_with p (c :: s) = true).
      { rewrite Ep in *.
        apply starts_with_cons in E as [-> E].
        apply starts_with_cons; split; [reflexivity|].
        apply starts_with_replace_inv; [|exact E].
        intros Hin; apply Hn; now right. }
      destruct Hs as [->|Hs]; [congruence|].
      apply not_occurs_cons in Hs as [Hs _]; congruence.
    + apply IHs.
      destruct Hs as [Hs|Hs]; [now left | right].
      now apply not_occurs_cons in Hs.
  - rewrite str_replace_hit by apply old_nonempty.
    rewrite (occurs_skip_prefix p new _ a p' Ep).
    + apply IHs.
      destruct Hs as [Hs|Hs]; [now left | right].
      now apply not_occurs_app_r in Hs.
    + apply (no_common_char_In p new a Hp); rewrite Ep; now left.
Qed.

(** A two-character token [a b] is not in the result when [new] does not
    begin with [b] and no occurrence of the token begins inside [new]. *)
Lemma not_occurs_replace_pair (a b : char) (s : str) :
  old = [a; b] -> n <> b ->
  (forall t, occurs old (new ++ t) = occurs old t) ->
  occurs old (f s) = false.
Proof.
  intros Eold Hb Hin; unfold f.
  induction s as [|c s Hmiss IHs|r IHs] using (replace_ind old old_nonempty).
  - rewrite str_replace_nil by apply old_nonempty; now rewrite Eold.
  - rewrite str_replace_miss by (apply old_nonempty || assumption).
    rewrite occurs_cons, IHs, orb_false_r.
    remember (str_replace old new s) as fs eqn:Efs.
    destruct (starts_with old (c :: fs)) eqn:E; [|reflexivity].
    rewrite Eold in E, Hmiss.
    apply starts_with_cons in E as [-> E].
    subst fs.
    apply starts_with_replace_inv in E.
    + destruct s as [|d s]; [discriminate|].
      apply starts_with_cons in E as [-> _].
      simpl in Hmiss; now rewrite !N.eqb_refl in Hmiss.
    + intros [Hnb|[]]; congruence.
  - rewrite str_replace_hit by apply old_nonempty.
    now rewrite Hin.
Qed.

(** An occurrence of [p] that shares no character with [old] stays. *)
Lemma occurs_replace (p s : str) :
  p <> [] -> no_common_char p old = true ->
  occurs p s = true -> occurs p (f s) = true.
Proof.
  intros Hne Hp; unfold f.
  assert (Ho : ~ In o p).
  { intros Hin; apply (no_common_char_In p old o Hp Hin).
    destruct old; [discriminate | injection old_hd as ->; now left]. }
  destruct p as [|a p'] eqn:Ep; [contradiction|]; rewrite <- Ep in *.
  induction s as [|c s Hmiss IHs|r IHs] using (replace_ind old old_nonempty);
    intros Hs.
  - now rewrite str_replace_nil by apply old_nonempty.
  - rewrite str_replace_miss by (apply old_nonempty || assumption).
    rewrite occurs_cons in Hs |- *.
    apply orb_true_iff in Hs as [Hs|Hs]; apply orb_true_iff.
    + left. rewrite Ep in *.
      apply starts_with_cons in Hs as [-> Hs].
      apply starts_with_cons; split; [reflexivity|].
      apply starts_with_replace; [|exact Hs].
      intros Hin; apply Ho; now right.
    + right; auto.
  - rewrite str_replace_hit by apply old_nonempty.
    apply occurs_app_r, IHs.
    rewrite (occurs_skip_prefix p old _ a p' Ep) in Hs; [exact Hs|].
    apply (no_common_char_In p old a Hp); rewrite Ep; now left.
Qed.

(** Where neither [old] nor [new] begins with a character of [p], the
    replacement does not change whether [a :: p] is a prefix. *)
Lemma starts_with_replace_cons (a c : char) (p s : str) :
  ~ In o p -> ~ In n p ->
  starts_with (a :: p) (c :: f s) = starts_with (a :: p) (c :: s).
Proof.
  intros Ho Hn; apply eq_true_iff_eq; rewrite !starts_with_cons.
  split; intros [-> H]; split; auto.
  - now apply starts_with_replace_inv.
  - now apply starts_with_replace.
Qed.

End ReplaceOccurrences.

(** ** What [str.strip] keeps *)

Lemma lstrip_hd (s : str) : hd_space (lstrip s) = false.
Proof.
  induction s as [|c s IH]; [reflexivity|].
  simpl; destruct (is_space c) eqn:E; [exact IH | exact E].
Qed.

Lemma lstrip_fixed (s : str) : hd_space s = false -> lstrip s = s.
Proof. destruct s as [|c s]; simpl; [reflexivity | now intros ->]. Qed.

Lemma lstrip_idem (s : str) : lstrip (lstrip s) = lstrip s.
Proof. apply lstrip_fixed, lstrip_hd. Qed.

Lemma hd_space_firstn (n : nat) (s : str) :
  hd_space s = false -> hd_space (firstn n s) = false.
Proof. destruct n, s; simpl; auto. Qed.

Lemma strip_both_idem (s : str) : strip_both (strip_both s) = strip_both s.
Proof.
  unfold strip_both.
  rewrite (lstrip_fixed (rstrip (lstrip s))).
  - unfold rstrip; now rewrite rev_involutive, lstrip_idem.
  - rewrite rstrip_firstn; apply hd_space_firstn, lstrip_hd.
Qed.

Lemma str_strip_idem (s : str) : str_strip (str_strip s) = str_strip s.
Proof. rewrite !str_strip_eq; apply strip_both_idem. Qed.

(** The result is a piece of the argument. *)
Lemma str_strip_piece (s : str) : exists l r, s = l ++ str_strip s ++ r.
Proof.
  rewrite str_strip_eq; unfold strip_both.
  rewrite rstrip_firstn, lstrip_skipn.
  set (i := leading_spaces s); set (t := skipn i s).
  set (m := (length t - leading_spaces (rev t))%nat).
  exists (firstn i s), (skipn m t).
  now rewrite firstn_skipn; unfold t; rewrite firstn_skipn.
Qed.

Lemma not_occurs_strip (p s : str) :
  occurs p s = false -> occurs p (str_strip s) = false.
Proof.
  intros H; destruct (str_strip_piece s) as (l & r & E).
  rewrite E in H.
  now apply not_occurs_app_r, not_occurs_app_l in H.
Qed.

Lemma occurs_rev (p s : str) : occurs (rev p) (rev s) = occurs p s.
Proof.
  apply eq_true_iff_eq; rewrite !occurs_iff; split.
  - intros (l & r & E); exists (rev r), (rev l).
    apply (f_equal (@rev char)) in E.
    now rewrite rev_involutive, !rev_app_distr, rev_involutive, <- app_assoc in E.
  - intros (l & r & ->); exists (rev r), (rev l).
    now rewrite !rev_app_distr, <- app_assoc.
Qed.

Lemma occurs_lstrip (a : char) (p s : str) :
  is_space a = false ->
  occurs (a :: p) s = true -> occurs (a :: p) (lstrip s) = true.
Proof.
  intros Ha; induction s as [|c s IH]; intros H; [exact H|].
  simpl lstrip; destruct (is_space c) eqn:Ec; [|exact H].
  apply IH.
  rewrite occurs_cons in H; apply orb_true_iff in H as [H|H]; [|exact H].
  apply starts_with_cons in H as [-> _]; congruence.
Qed.

(** A string without whitespace that occurs in the argument occurs in the
    result. *)
Lemma occurs_strip (p s : str) :
  p <> [] -> forallb (fun c => negb (is_space c)) p = true ->
  occurs p s = true -> occurs p (str_strip s) = true.
Proof.
  intros Hne Hp H; rewrite str_strip_eq; unfold strip_both, rstrip.
  rewrite forallb_forall in Hp.
  assert (Hsp : forall c, In c p -> is_space c = false)
    by (intros c Hc; now apply negb_true_iff, Hp).
  rewrite <- occurs_rev, rev_involutive.
  destruct (rev p) as [|b q] eqn:Er.
  { apply (f_equal (@rev char)) in Er; rewrite rev_involutive in Er.
    now subst p. }
  apply occurs_lstrip.
  - apply Hsp, in_rev; rewrite Er; now left.
  - rewrite <- Er, occurs_rev.
    destruct p as [|a p']; [contradiction|].
    apply occurs_lstrip; [apply Hsp; now left | exact H].
Qed.

(** ** What the formatter leaves in its output *)

Lemma clean_answer_chain (answer : str) :
  clean_answer answer = str_strip (chain3 answer).
Proof. reflexivity. Qed.

Lemma quotesingle_nonempty : quotesingle <> [].
Proof. discriminate. Qed.

Lemma colon_space_nonempty : colon_space <> [].
Proof. discriminate. Qed.

Lemma rparen_space_nonempty : rparen_space <> [].
Proof. discriminate. Qed.

Lemma chain1_no_quotesingle (s : str) : occurs quotesingle (chain1 s) = false.
Proof.
  apply (not_occurs_replace quotesingle apostrophe 47 ch_apos);
    try reflexivity; [discriminate | now left].
Qed.

Lemma chain2_no_quotesingle (s : str) : occurs quotesingle (chain2 s) = false.
Proof.
  apply (not_occurs_replace colon_space colon_nl_tab ch_colon ch_colon);
    try reflexivity; [discriminate | right; apply chain1_no_quotesingle].
Qed.

Lemma chain3_no_quotesingle (s : str) : occurs quotesingle (chain3 s) = false.
Proof.
  apply (not_occurs_replace rparen_space rparen_nl_tab ch_rparen ch_rparen);
    try reflexivity; [discriminate | right; apply chain2_no_quotesingle].
Qed.

Lemma chain2_no_colon_space (s : str) : occurs colon_space (chain2 s) = false.
Proof.
  apply (not_occurs_replace_pair colon_space colon_nl_tab ch_colon ch_colon
           eq_refl eq_refl ch_colon ch_space);
    [reflexivity | discriminate | reflexivity].
Qed.

Lemma chain3_no_colon_space (s : str) : occurs colon_space (chain3 s) = false.
Proof.
  apply (not_occurs_replace rparen_space rparen_nl_tab ch_rparen ch_rparen);
    try reflexivity; [discriminate | right; apply chain2_no_colon_space].
Qed.

Lemma chain3_no_rparen_space (s : str) : occurs rparen_space (chain3 s) = false.
Proof.
  apply (not_occurs_replace_pair rparen_space rparen_nl_tab ch_rparen ch_rparen
           eq_refl eq_refl ch_rparen ch_space);
    [reflexivity | discriminate | reflexivity].
Qed.

Lemma clean_answer_fixed (s : str) :
  occurs quotesingle s = false ->
  occurs colon_space s = false ->
  occurs rparen_space s = false ->
  clean_answer s = str_strip s.
Proof.
  intros H1 H2 H3; unfold clean_answer.
  rewrite (str_replace_absent quotesingle apostrophe quotesingle_nonempty s H1).
  rewrite (str_replace_absent colon_space colon_nl_tab colon_space_nonempty s H2).
  now rewrite (str_replace_absent rparen_space rparen_nl_tab rparen_space_nonempty s H3).
Qed.

Lemma clean_answer_clean (s : str) :
  occurs quotesingle (clean_answer s) = false /\
  occurs colon_space (clean_answer s) = false /\
  occurs rparen_space (clean_answer s) = false.
Proof.
  rewrite clean_answer_chain; repeat split; apply not_occurs_strip.
  - apply chain3_no_quotesingle.
  - apply chain3_no_colon_space.
  - apply chain3_no_rparen_space.
Qed.

Lemma clean_answer_idem (s : str) :
  clean_answer (clean_answer s) = clean_answer s.
Proof.
  destruct (clean_answer_clean s) as (H1 & H2 & H3).
  rewrite clean_answer_fixed by assumption.
  rewrite clean_answer_chain; apply str_strip_idem.
Qed.

(** ** Every occurrence of a borderless token is replaced *)

Section ReplaceAround.

Variables old new : str.
Hypothesis old_nonempty : old <> [].

(** A prefix of [x ++ r] longer than [x] begins with [x]. *)
Lemma starts_with_longer (p x r : str) :
  starts_with p (x ++ r) = true -> (length x <= length p)%nat ->
  starts_with x p = true.
Proof.
  intros H Hlen.
  apply (starts_with_both x p (x ++ r)); auto using starts_with_app.
Qed.

Lemma starts_with_shorter (p x r : str) :
  starts_with p (x ++ r) = true -> (length p <= length x)%nat ->
  starts_with p x = true.
Proof.
  intros H Hlen.
  apply (starts_with_both p x (x ++ r)); auto using starts_with_app.
Qed.

(** The scan passes a character that is not in [old] without a match. *)
Lemma str_replace_around (c : char) (l r : str) :
  ~ In c old ->
  str_replace old new (l ++ c :: r)
  = str_replace old new l ++ c :: str_replace old new r.
Proof.
  intros Hc.
  induction l as [|d l Hmiss IHl|l IHl] using (replace_ind old old_nonempty).
  - rewrite str_replace_nil by assumption; cbn [app].
    apply str_replace_miss; [assumption|].
    destruct old as [|a old']; [contradiction|].
    simpl; destruct (N.eqb_spec a c) as [->|_]; [|reflexivity].
    exfalso; apply Hc; now left.
  - cbn [app]; rewrite !str_replace_miss, IHl; auto.
    destruct (starts_with old (d :: l ++ c :: r)) eqn:E; [|reflexivity].
    destruct (Nat.le_gt_cases (length old) (length (d :: l))) as [Hle|Hgt].
    + apply (starts_with_shorter old (d :: l) (c :: r)) in E; congruence.
    + exfalso; apply Hc.
      change (d :: l ++ c :: r) with ((d :: l) ++ [c] ++ r) in E.
      rewrite app_assoc in E.
      apply starts_with_longer in E; [|rewrite length_app; simpl in *; lia].
      apply starts_with_iff in E as [q ->].
      rewrite <- app_assoc; apply in_or_app; right; now left.
  - rewrite <- app_assoc, !str_replace_hit, IHl by assumption.
    now rewrite app_assoc.
Qed.

Hypothesis old_borderless : borderless old = true.

(** In front of an occurrence of a borderless [old] no occurrence begins
    that reaches into it. *)
Lemma starts_with_before (x r : str) :
  x <> [] -> starts_with old (x ++ old ++ r) = starts_with old x.
Proof.
  intros Hx.
  destruct (starts_with old x) eqn:Ex.
  - apply starts_with_iff in Ex as [q ->].
    rewrite <- app_assoc; apply starts_with_app.
  - destruct (starts_with old (x ++ old ++ r)) eqn:E; [|reflexivity].
    destruct (Nat.le_gt_cases (length old) (length x)) as [Hle|Hgt].
    + apply starts_with_shorter in E; congruence.
    + exfalso.
      pose proof (starts_with_longer _ _ _ E (Nat.lt_le_incl _ _ Hgt)) as Hxo.
      apply starts_with_split in Hxo.
      apply starts_with_iff in E as [q E].
      assert (E2 : x ++ old ++ r = (x ++ skipn (length x) old) ++ q)
        by (rewrite <- Hxo; exact E).
      rewrite <- app_assoc in E2; apply app_inv_head in E2.
      assert (Hb : starts_with (skipn (length x) old) old = true).
      { apply (starts_with_both _ _ (old ++ r)).
        - rewrite E2; apply starts_with_app.
        - apply starts_with_app.
        - rewrite length_skipn; lia. }
      rewrite borderless_spec in Hb; [discriminate | assumption |].
      destruct x; [contradiction | simpl in *; lia].
Qed.

Lemma str_replace_occurrence (l r : str) :
  str_replace old new (l ++ old ++ r)
  = str_replace old new l ++ new ++ str_replace old new r.
Proof.
  induction l as [|d l Hmiss IHl|l IHl] using (replace_ind old old_nonempty).
  - rewrite str_replace_nil by assumption; cbn [app].
    now apply str_replace_hit.
  - change ((d :: l) ++ old ++ r) with (d :: l ++ old ++ r).
    rewrite !str_replace_miss, IHl; auto.
    change (d :: l ++ old ++ r) with ((d :: l) ++ old ++ r).
    rewrite starts_with_before; [exact Hmiss | discriminate].
  - rewrite <- app_assoc, !str_replace_hit, IHl by assumption.
    now rewrite app_assoc.
Qed.

End ReplaceAround.

Lemma chain1_occurrence (l r : str) :
  chain1 (l ++ quotesingle ++ r) = chain1 l ++ apostrophe ++ chain1 r.
Proof.
  apply str_replace_occurrence;
    [apply quotesingle_nonempty | apply quotesingle_borderless].
Qed.

Lemma chain3_occurrence (l r : str) :
  chain3 (l ++ quotesingle ++ r) = chain3 l ++ apostrophe ++ chain3 r.
Proof.
  unfold chain3, chain2; rewrite chain1_occurrence.
  unfold apostrophe; cbn [app].
  rewrite (str_replace_around colon_space colon_nl_tab colon_space_nonempty).
  - rewrite (str_replace_around rparen_space rparen_nl_tab rparen_space_nonempty).
    + reflexivity.
    + intros [H|[H|[]]]; discriminate.
  - intros [H|[H|[]]]; discriminate.
Qed.

Lemma chain1_dont (s : str) :
  occurs dont_token s = true -> occurs dont (chain1 s) = true.
Proof.
  rewrite !occurs_iff; intros (l & r & ->).
  exists (chain1 l), (chain1 r).
  change dont_token with (lit "don" ++ quotesingle ++ lit "t").
  change dont with (lit "don" ++ apostrophe ++ lit "t").
  replace (l ++ (lit "don" ++ quotesingle ++ lit "t") ++ r)
    with ((l ++ lit "don") ++ quotesingle ++ (lit "t" ++ r))
    by now rewrite <- !app_assoc.
  rewrite chain1_occurrence.
  unfold chain1.
  change (lit "don") with (100 :: lit "on").
  rewrite (str_replace_around quotesingle apostrophe quotesingle_nonempty).
  - change (lit "t" ++ r) with (116 :: r).
    rewrite str_replace_miss by (apply quotesingle_nonempty || reflexivity).
    change (str_replace quotesingle apostrophe (lit "on")) with (lit "on").
    now rewrite <- !app_assoc.
  - intros H; apply mem_In in H; discriminate.
Qed.

Lemma clean_answer_dont (s : str) :
  occurs dont_token s = true -> occurs dont (clean_answer s) = true.
Proof.
  intros H; unfold clean_answer.
  apply occurs_strip; [discriminate | reflexivity |].
  apply (occurs_replace rparen_space rparen_nl_tab ch_rparen eq_refl);
    [discriminate | reflexivity |].
  apply (occurs_replace colon_space colon_nl_tab ch_colon eq_refl);
    [discriminate | reflexivity |].
  now apply chain1_dont.
Qed.

(** ** Counting [":\n\t"] *)

Lemma occurrences_cons (p : str) (c : char) (s : str) :
  occurrences p (c :: s)
  = ((if starts_with p (c :: s) then 1 else 0) + occurrences p s)%nat.
Proof. reflexivity. Qed.

Lemma occurrences_skip_prefix (p l s : str) (a : char) (p' : str) :
  p = a :: p' -> ~ In a l ->
  occurrences p (l ++ s) = occurrences p s.
Proof.
  intros -> Hnot.
  induction l as [|c l IH]; [reflexivity|].
  cbn [app]; rewrite occurrences_cons, IH.
  - simpl. destruct (N.eqb_spec a c) as [->|_]; [|reflexivity].
    exfalso; apply Hnot; now left.
  - intros Hin; apply Hnot; now right.
Qed.

Lemma occurrences_colon_nl_tab_new (t : str) :
  occurrences colon_nl_tab (colon_nl_tab ++ t)
  = S (occurrences colon_nl_tab t).
Proof. reflexivity. Qed.

Lemma occurrences_colon_nl_tab_old (t : str) :
  occurrences colon_nl_tab (colon_space ++ t) = occurrences colon_nl_tab t.
Proof. reflexivity. Qed.

Lemma occurrences_colon_space_old (t : str) :
  occurrences colon_space (colon_space ++ t) = S (occurrences colon_space t).
Proof. reflexivity. Qed.

Lemma occurrences_colon_nl_tab_rparen (t : str) :
  occurrences colon_nl_tab (rparen_nl_tab ++ t) = occurrences colon_nl_tab t /\
  occurrences colon_nl_tab (rparen_space ++ t) = occurrences colon_nl_tab t.
Proof. split; reflexivity. Qed.

(** The second replacement turns every [": "] into a [":\n\t"] and keeps
    the ones that are there. *)
Lemma occurrences_replace_colon (x : str) :
  occurrences colon_nl_tab (str_replace colon_space colon_nl_tab x)
  = (occurrences colon_space x + occurrences colon_nl_tab x)%nat.
Proof.
  induction x as [|c x Hmiss IHx|r IHr]
    using (replace_ind colon_space colon_space_nonempty).
  - reflexivity.
  - rewrite str_replace_miss by (apply colon_space_nonempty || assumption).
    rewrite !occurrences_cons, IHx, Hmiss.
    unfold colon_nl_tab at 1.
    rewrite (starts_with_replace_cons colon_space colon_nl_tab ch_colon ch_colon
               eq_refl eq_refl).
    + unfold colon_nl_tab; lia.
    + intros [H|[H|[]]]; discriminate.
    + intros [H|[H|[]]]; discriminate.
  - rewrite str_replace_hit by apply colon_space_nonempty.
    rewrite occurrences_colon_nl_tab_new, occurrences_colon_nl_tab_old,
      occurrences_colon_space_old, IHr.
    lia.
Qed.

(** The third replacement neither makes nor breaks a [":\n\t"]. *)
Lemma occurrences_replace_rparen (y : str) :
  occurrences colon_nl_tab (str_replace rparen_space rparen_nl_tab y)
  = occurrences colon_nl_tab y.
Proof.
  induction y as [|c y Hmiss IHy|r IHr]
    using (replace_ind rparen_space rparen_space_nonempty).
  - reflexivity.
  - rewrite str_replace_miss by (apply rparen_space_nonempty || assumption).
    rewrite !occurrences_cons, IHy.
    unfold colon_nl_tab at 1 3.
    rewrite (starts_with_replace_cons rparen_space rparen_nl_tab ch_rparen
               ch_rparen eq_refl eq_refl).
    + reflexivity.
    + intros [H|[H|[]]]; discriminate.
    + intros [H|[H|[]]]; discriminate.
  - rewrite str_replace_hit by apply rparen_space_nonempty.
    destruct (occurrences_colon_nl_tab_rparen (str_replace rparen_space rparen_nl_tab r))
      as [-> _].
    destruct (occurrences_colon_nl_tab_rparen r) as [_ ->].
    exact IHr.
Qed.

Lemma chain3_occurrences (s : str) :
  occurrences colon_nl_tab (chain3 s)
  = (occurrences colon_space (chain1 s) + occurrences colon_nl_tab (chain1 s))%nat.
Proof.
  unfold chain3, chain2.
  now rewrite occurrences_replace_rparen, occurrences_replace_colon.
Qed.

Lemma ends_space_snoc (l : str) (c : char) :
  ends_space (l ++ [c]) = is_space c.
Proof.
  induction l as [|a l IH]; [reflexivity|].
  cbn [app ends_space]; rewrite IH.
  destruct l; reflexivity.
Qed.

Lemma ends_space_rev (x : str) : ends_space (rev x) = hd_space x.
Proof. destruct x as [|a x]; [reflexivity | apply ends_space_snoc]. Qed.

Lemma rstrip_ends (u : str) : ends_space (rstrip u) = false.
Proof. unfold rstrip; rewrite ends_space_rev; apply lstrip_hd. Qed.

Lemma leading_all_space (x : str) (c : char) :
  In c (firstn (leading_spaces x) x) -> is_space c = true.
Proof.
  induction x as [|a x IH]; simpl; [tauto|].
  destruct (is_space a) eqn:E; simpl; [|tauto].
  intros [<-|H]; auto.
Qed.

Lemma lstrip_decompose (t : str) :
  t = firstn (leading_spaces t) t ++ lstrip t.
Proof. now rewrite lstrip_skipn, firstn_skipn. Qed.

Lemma rstrip_decompose (u : str) :
  u = rstrip u ++ rev (firstn (leading_spaces (rev u)) (rev u)).
Proof.
  unfold rstrip; rewrite lstrip_skipn, <- rev_app_distr, firstn_skipn.
  now rewrite rev_involutive.
Qed.

Lemma all_space_no_colon (r : str) :
  (forall c, In c r -> is_space c = true) -> ~ In ch_colon r.
Proof. intros H Hin; apply H in Hin; discriminate. Qed.

Lemma all_space_occurrences (r : str) :
  (forall c, In c r -> is_space c = true) ->
  occurrences colon_nl_tab r = 0%nat /\ starts_with colon_nl_tab r = false.
Proof.
  intros H; apply all_space_no_colon in H; split.
  - rewrite <- (app_nil_r r).
    now rewrite (occurrences_skip_prefix colon_nl_tab r [] ch_colon _ eq_refl H).
  - destruct (starts_with colon_nl_tab r) eqn:E; [|reflexivity].
    destruct r as [|d r]; [discriminate|].
    unfold colon_nl_tab in E; apply starts_with_cons in E as [<- _].
    exfalso; apply H; now left.
Qed.

(** Behind a text that does not end in whitespace, a run of whitespace adds
    at most the one occurrence that begins at the last character of the
    text. *)
Lemma occurrences_tail (m r : str) :
  (forall c, In c r -> is_space c = true) -> ends_space m = false ->
  occurrences colon_nl_tab (m ++ r)
  = (occurrences colon_nl_tab m
     + if starts_with colon_nl_tab (skipn (length m - 1) (m ++ r))
       then 1 else 0)%nat.
Proof.
  intros Hr; destruct (all_space_occurrences r Hr) as [Hr0 Hr1].
  induction m as [|c m IH]; intros Hm.
  - cbn [app length Nat.sub skipn]; now rewrite Hr0, Hr1.
  - destruct m as [|d m].
    + cbn [app length Nat.sub skipn]; rewrite occurrences_cons, Hr0.
      replace (occurrences colon_nl_tab [c]) with 0%nat; [lia|].
      rewrite occurrences_cons.
      destruct (starts_with colon_nl_tab [c]) eqn:E; [|reflexivity].
      unfold colon_nl_tab in E; apply starts_with_cons in E as [_ E].
      discriminate.
    + change ((c :: d :: m) ++ r) with (c :: (d :: m) ++ r).
      rewrite !(occurrences_cons colon_nl_tab c), IH by exact Hm.
      replace (skipn (length (c :: d :: m) - 1) (c :: (d :: m) ++ r))
        with (skipn (length (d :: m) - 1) ((d :: m) ++ r))
        by (cbn [length]; rewrite !Nat.sub_succ, !Nat.sub_0_r; reflexivity).
      replace (starts_with colon_nl_tab (c :: (d :: m) ++ r))
        with (starts_with colon_nl_tab (c :: d :: m)); [lia|].
      destruct m as [|e m]; [|reflexivity].
      assert (Hd : d <> ch_nl) by (intros ->; discriminate Hm).
      unfold colon_nl_tab.
      destruct (starts_with [ch_colon; ch_nl; ch_tab] [c; d]) eqn:E1.
      { apply starts_with_cons in E1 as [_ E1].
        apply starts_with_cons in E1 as [<- _]; contradiction. }
      destruct (starts_with [ch_colon; ch_nl; ch_tab] (c :: [d] ++ r)) eqn:E2;
        [|reflexivity].
      apply starts_with_cons in E2 as [_ E2].
      apply starts_with_cons in E2 as [<- _]; contradiction.
Qed.

Lemma occurrences_strip (t : str) :
  occurrences colon_nl_tab t
  = (occurrences colon_nl_tab (str_strip t)
     + if cut_by_strip t then 1 else 0)%nat.
Proof.
  unfold cut_by_strip; rewrite str_strip_eq; unfold strip_both.
  rewrite (lstrip_decompose t) at 1.
  rewrite (occurrences_skip_prefix colon_nl_tab _ _ ch_colon _ eq_refl)
    by (apply all_space_no_colon, leading_all_space).
  set (u := lstrip t).
  pose proof (occurrences_tail (rstrip u)
                (rev (firstn (leading_spaces (rev u)) (rev u)))) as H.
  rewrite <- rstrip_decompose in H.
  apply H; [|apply rstrip_ends].
  intros c Hc; apply in_rev in Hc.
  now apply leading_all_space in Hc.
Qed.



(** ** The query handler *)

Ltac run_handler :=
  unfold handle_query, with_spinner, bind, invoke, getitem, format, emit, ret,
    raise; cbn [truthy fst snd cache loads calls log].

Lemma handle_query_answer (a : artifact) (q : str) (st : process)
    (resp : dict) (r : str) :
  q <> [] ->
  chain_invoke (art_chain a) (calls st) (query_arg q) = Return resp ->
  dict_get "result" resp = Some (VStr r) ->
  handle_query a q st
  = (Return tt,
     after_call st a q [EvSubheader "Answer:"; EvCode (clean_answer r) "python"]).
Proof.
  intros Hq Hinv Hres.
  destruct q as [|c q]; [contradiction|].
  unfold query_arg in Hinv.
  run_handler; rewrite Hinv, Hres; cbn [cache loads calls log snd].
  unfold after_call; f_equal; f_equal.
  now rewrite <- !app_assoc.
Qed.

Lemma handle_query_raise (a : artifact) (q : str) (st : process) (e : exn) :
  q <> [] ->
  chain_invoke (art_chain a) (calls st) (query_arg q) = Raise e ->
  handle_query a q st = (Raise e, after_call st a q []).
Proof.
  intros Hq Hinv.
  destruct q as [|c q]; [contradiction|].
  unfold query_arg in Hinv.
  run_handler; rewrite Hinv; cbn [cache loads calls log snd].
  unfold after_call; f_equal; f_equal.
  now rewrite <- !app_assoc.
Qed.

Lemma handle_query_no_result (a : artifact) (q : str) (st : process)
    (resp : dict) :
  q <> [] ->
  chain_invoke (art_chain a) (calls st) (query_arg q) = Return resp ->
  dict_get "result" resp = None ->
  handle_query a q st = (Raise (KeyError "result"), after_call st a q []).
Proof.
  intros Hq Hinv Hres.
  destruct q as [|c q]; [contradiction|].
  unfold query_arg in Hinv.
  run_handler; rewrite Hinv, Hres; cbn [cache loads calls log snd].
  unfold after_call; f_equal; f_equal.
  now rewrite <- !app_assoc.
Qed.

Lemma handle_query_empty (a : artifact) (st : process) :
  handle_query a [] st = (Return tt, st).
Proof. reflexivity. Qed.

(** ** The cached loader *)

Lemma load_cached (d : disk) (st : process) (a : artifact) :
  cache st = Some a -> load_qa_chain d st = (Return a, st).
Proof.
  intros H; unfold load_qa_chain, cache_resource; now rewrite H.
Qed.

Lemma load_first (c : chain) (st : process) :
  cache st = None ->
  load_qa_chain (Some (Pickle c)) st
  = (Return {| art_id := loads st; art_chain := c |},
     {| cache := Some {| art_id := loads st; art_chain := c |};
        loads := S (loads st); calls := calls st;
        log := log st ++ [EvOpen; EvUnpickle (loads st)] |}).
Proof.
  intros H; unfold load_qa_chain, cache_resource; rewrite H.
  cbn; now rewrite <- app_assoc.
Qed.

(** With the artifact in the cache, a run of the script is the page, the
    text input and the handler on the cached artifact. *)
Lemma script_cached (d : disk) (q : str) (st : process) (a : artifact) :
  cache st = Some a ->
  script d q st
  = handle_query a q
      (with_log st (log st ++ page_head ++ [EvTextInput "Enter your question:"])).
Proof.
  intros H; destruct st as [ca lo cl lg]; cbn in H; subst ca.
  unfold script, bind, emit, load_qa_chain, cache_resource, with_log, page_head.
  cbn [cache loads calls log]; now rewrite <- !app_assoc.
Qed.

(** ** One deserialization per process *)

Lemma storage_events_app (l l' : list event) :
  storage_events (l ++ l') = storage_events l ++ storage_events l'.
Proof. apply filter_app. Qed.

Lemma invoked_app (l l' : list event) :
  invoked (l ++ l') = invoked l ++ invoked l'.
Proof.
  induction l as [|e l IH]; [reflexivity|].
  destruct e; cbn [app invoked]; rewrite IH; reflexivity.
Qed.

Lemma unpickles_storage (l : list event) :
  unpickles l = length (filter is_unpickle (storage_events l)).
Proof.
  unfold unpickles, storage_events; f_equal.
  induction l as [|e l IH]; [reflexivity|].
  destruct e; cbn [filter is_storage is_unpickle]; now rewrite IH.
Qed.

Lemma unpickles_opens (k : nat) :
  filter is_unpickle (repeat EvOpen k) = [].
Proof. induction k as [|k IH]; [reflexivity | exact IH]. Qed.

Ltac split_log :=
  rewrite ?storage_events_app, ?invoked_app;
  cbn [storage_events filter is_storage invoked app];
  rewrite ?app_nil_r.

Lemma loaded_once_init : loaded_once init.
Proof. split; [now exists 0%nat | reflexivity]. Qed.

(** The handler keeps the cache and adds no storage event; what it calls is
    the artifact it is given. *)
Lemma handle_query_state (a : artifact) (q : str) (st : process) :
  exists evs,
    cache (snd (handle_query a q st)) = cache st
    /\ log (snd (handle_query a q st)) = log st ++ evs
    /\ storage_events evs = []
    /\ Forall (fun ia => fst ia = art_id a) (invoked evs).
Proof.
  destruct q as [|c q].
  - exists []; rewrite handle_query_empty, app_nil_r; repeat split; constructor.
  - set (q' := c :: q).
    assert (Hq : q' <> []) by discriminate.
    destruct (chain_invoke (art_chain a) (calls st) (query_arg q')) as [resp|e] eqn:E.
    + destruct (dict_get "result" resp) as [[r|]|] eqn:R.
      * rewrite (handle_query_answer a q' st resp r Hq E R).
        eexists; repeat split; [reflexivity..|].
        repeat constructor.
      * exists ([EvSpinnerEnter spinner_text;
                 EvInvoke (art_id a) (query_arg q')] ++ [EvSpinnerExit]).
        unfold q', query_arg in *; run_handler; rewrite E, R.
        cbn [cache loads calls log snd]; rewrite <- !app_assoc.
        repeat split; repeat constructor.
      * rewrite (handle_query_no_result a q' st resp Hq E R).
        eexists; repeat split; [reflexivity..|].
        repeat constructor.
    + rewrite (handle_query_raise a q' st e Hq E).
      eexists; repeat split; [reflexivity..|].
      repeat constructor.
Qed.

(** A run of the script keeps [loaded_once]. *)
Lemma loaded_once_rerun (st : process) (r : disk * str) :
  loaded_once st -> loaded_once (rerun st r).
Proof.
  destruct r as [d q]; unfold rerun; cbn [fst snd].
  unfold loaded_once; destruct (cache st) as [a|] eqn:Hc.
  - intros [[k Hk] Hinv].
    rewrite (script_cached d q st a Hc).
    set (st1 := with_log st _).
    destruct (handle_query_state a q st1) as (evs & Hcache & Hlog & Hsto & Hcalls).
    rewrite Hcache, Hlog; unfold st1, with_log; cbn [cache log]; rewrite Hc.
    unfold page_head; split_log; rewrite Hsto, app_nil_r.
    split; [now exists k | now apply Forall_app].
  - intros [[k Hk] Hinv].
    destruct st as [ca lo cl lg]; cbn [cache log] in Hc, Hk, Hinv; subst ca.
    destruct d as [[|c]|].
    + unfold script, bind, emit, load_qa_chain, cache_resource,
        load_qa_chain_body, open_rb, pickle_load, bind, emit, ret, raise.
      cbn [cache loads calls log snd]; split_log; rewrite Hk, Hinv.
      split; [|reflexivity].
      exists (S k); symmetry; apply repeat_cons.
    + set (a := {| art_id := lo; art_chain := c |}).
      set (st1 := {| cache := Some a; loads := S lo; calls := cl;
                     log := lg ++ page_head ++ [EvOpen; EvUnpickle lo]
                            ++ [EvTextInput "Enter your question:"] |}).
      assert (Hs : script (Some (Pickle c)) q
                     {| cache := None; loads := lo; calls := cl; log := lg |}
                   = handle_query a q st1).
      { unfold script, bind, emit, load_qa_chain, cache_resource,
          load_qa_chain_body, open_rb, pickle_load, bind, emit, ret, st1,
          page_head.
        cbn [cache loads calls log]; now rewrite <- !app_assoc. }
      rewrite Hs.
      destruct (handle_query_state a q st1) as (evs & Hcache & Hlog & Hsto & Hcalls).
      rewrite Hcache, Hlog; unfold st1, page_head; cbn [cache log art_id a].
      split_log; rewrite Hk, Hinv, Hsto, app_nil_r.
      split; [|exact Hcalls].
      exists (S k); cbn [repeat]; rewrite repeat_cons, <- !app_assoc; reflexivity.
    + unfold script, bind, emit, load_qa_chain, cache_resource,
        load_qa_chain_body, open_rb, bind, raise.
      cbn [cache loads calls log snd]; split_log; rewrite Hk, Hinv.
      split; [now exists k | reflexivity].
Qed.

Lemma loaded_once_run_all (runs : list (disk * str)) (st : process) :
  loaded_once st -> loaded_once (run_all runs st).
Proof.
  revert st; induction runs as [|r runs IH]; intros st H; [exact H|].
  apply IH, loaded_once_rerun, H.
Qed.


Lemma cache_run_all (runs : list (disk * str)) (st : process) (a : artifact) :
  cache st = Some a -> cache (run_all runs st) = Some a.
Proof.
  revert st; induction runs as [|[d q] runs IH]; intros st H; [exact H|].
  apply IH; unfold rerun; cbn [fst snd].
  rewrite (script_cached d q st a H).
  destruct (handle_query_state a q
              (with_log st (log st ++ page_head
                            ++ [EvTextInput "Enter your question:"])))
    as (evs & Hcache & _).
  now rewrite Hcache.
Qed.

(** ** A run of the script *)

Lemma answers_app (l l' : list event) :
  answers (l ++ l') = answers l ++ answers l'.
Proof.
  induction l as [|e l IH]; [reflexivity|].
  destruct e; cbn [app answers]; rewrite IH; reflexivity.
Qed.

Lemma script_unfold (d : disk) (q : str) (st : process) :
  script d q st
  = match load_qa_chain d (before_load st) with
    | (Return a, st1) => handle_query a q (at_input st1)
    | (Raise e, st1) => (Raise e, st1)
    end.
Proof.
  unfold script, bind, emit, before_load, at_input, with_log, page_head.
  cbn [cache loads calls log]; rewrite <- app_assoc; cbn [app].
  destruct (load_qa_chain d _) as [[a|e] st1]; reflexivity.
Qed.

(** The loader calls no pipeline and draws no answer; what it returns is
    in the cache afterwards. *)
Lemma load_effects (d : disk) (st st1 : process) (r : outcome artifact) :
  load_qa_chain d st = (r, st1) ->
  calls st1 = calls st
  /\ invoked (log st1) = invoked (log st)
  /\ answers (log st1) = answers (log st)
  /\ (forall a, r = Return a -> cache st1 = Some a).
Proof.
  unfold load_qa_chain, cache_resource.
  destruct (cache st) as [a0|] eqn:Hc.
  - intros [= <- <-]; repeat split; auto.
    intros a [= <-]; exact Hc.
  - destruct d as [[|c]|];
      unfold load_qa_chain_body, open_rb, pickle_load, bind, emit, ret, raise;
      cbn [cache loads calls log]; intros [= <- <-]; cbn [cache calls log];
      rewrite ?invoked_app, ?answers_app, ?app_nil_r; cbn [invoked answers];
      rewrite ?app_nil_r; repeat split; auto; try discriminate.
    now intros a [= <-].
Qed.

Lemma before_load_effects (st : process) :
  calls (before_load st) = calls st
  /\ invoked (log (before_load st)) = invoked (log st)
  /\ answers (log (before_load st)) = answers (log st).
Proof.
  unfold before_load, with_log, page_head; cbn [calls log].
  rewrite invoked_app, answers_app; cbn [invoked answers].
  now rewrite !app_nil_r.
Qed.

Lemma after_call_effects (st : process) (a : artifact) (q : str)
    (evs : list event) :
  invoked evs = [] ->
  invoked (log (after_call (at_input st) a q evs))
  = invoked (log st) ++ [(art_id a, query_arg q)]
  /\ answers (log (after_call (at_input st) a q evs))
     = answers (log st) ++ answers evs.
Proof.
  intros H; unfold after_call, at_input, with_log; cbn [log].
  rewrite !invoked_app, !answers_app, H; cbn [invoked answers app].
  now rewrite !app_nil_r.
Qed.

(** ** Main results: the answer formatter *)

(** C1: the formatting step of the script is, for every input string, the
    composition the specification describes, in this order: every
    occurrence of "/quotesingle.ts1" replaced by an apostrophe, then every
    colon-space by colon-newline-tab, then every close-paren-space by
    close-paren-newline-tab, then leading and trailing whitespace
    stripped.  ([str.replace] replaces non-overlapping occurrences from
    the left; the three tokens are borderless, so these are all
    occurrences.) *)
Theorem clean_answer_is_spec_formatter (s : str) :
  clean_answer s = spec_formatter s.
Proof.
  unfold clean_answer, spec_formatter, spec_step4, spec_step3, spec_step2,
    spec_step1.
  rewrite (replace_every_eq _ apostrophe quotesingle_borderless _ quotesingle_nonempty).
  rewrite (replace_every_eq _ colon_nl_tab colon_space_borderless _ colon_space_nonempty).
  rewrite (replace_every_eq _ rparen_nl_tab rparen_space_borderless _ rparen_space_nonempty).
  apply str_strip_eq.
Qed.

(** C2, as stated, fails: no input string exists on which applying the
    formatter to its own output gives a different string. *)
Lemma no_input_breaks_idempotence :
  ~ exists s : str, clean_answer (clean_answer s) <> clean_answer s.
Proof. intros [s H]; apply H, clean_answer_idem. Qed.

(** C2, amended: the formatter is idempotent; applied to its own output it
    returns that output, for every input string. *)
Theorem clean_answer_idempotent (s : str) :
  clean_answer (clean_answer s) = clean_answer s.
Proof.
  destruct (clean_answer_clean s) as (Hq & Hc & Hp).
  rewrite (clean_answer_fixed (clean_answer s) Hq Hc Hp).
  rewrite clean_answer_chain.
  apply str_strip_idem.
Qed.

(** C3: on an answer that contains none of "/quotesingle.ts1", colon-space
    and close-paren-space, the formatter returns the answer with leading
    and trailing whitespace stripped. *)
Theorem clean_answer_without_tokens (s : str) :
  occurs quotesingle s = false ->
  occurs colon_space s = false ->
  occurs rparen_space s = false ->
  clean_answer s = str_strip s.
Proof.
  intros Hq Hc Hp; unfold clean_answer.
  rewrite (str_replace_absent quotesingle apostrophe quotesingle_nonempty s Hq).
  rewrite (str_replace_absent colon_space colon_nl_tab colon_space_nonempty s Hc).
  rewrite (str_replace_absent rparen_space rparen_nl_tab rparen_space_nonempty s Hp).
  reflexivity.
Qed.

Lemma clean_answer_without_tokens_witness :
  clean_answer (lit "  Paris is large.  ") = str_strip (lit "  Paris is large.  ")
  /\ str_strip (lit "  Paris is large.  ") = lit "Paris is large.".
Proof.
  split.
  - apply (clean_answer_without_tokens (lit "  Paris is large.  "));
      reflexivity.
  - reflexivity.
Defined.

(** C4: on an answer that contains "/quotesingle.ts1", every occurrence of
    the token is replaced by an apostrophe (wherever the answer is
    l ++ token ++ r, the output is the strip of the formatted l, an
    apostrophe and the formatted r), no occurrence of the token is left in
    the output, and an answer containing "don/quotesingle.ts1t" gives an
    output containing "don't". *)
Theorem clean_answer_quotesingle (s : str) :
  occurs quotesingle s = true ->
  (forall l r, s = l ++ quotesingle ++ r ->
     chain1 s = chain1 l ++ apostrophe ++ chain1 r
     /\ clean_answer s = str_strip (chain3 l ++ apostrophe ++ chain3 r))
  /\ occurs quotesingle (clean_answer s) = false
  /\ (occurs dont_token s = true -> occurs dont (clean_answer s) = true).
Proof.
  intros _; repeat split.
  - subst s; apply chain1_occurrence.
  - subst s; rewrite clean_answer_chain; f_equal; apply chain3_occurrence.
  - apply clean_answer_clean.
  - apply clean_answer_dont.
Qed.

Lemma clean_answer_quotesingle_witness :
  clean_answer (lit "I don/quotesingle.ts1t know") = lit "I don't know"
  /\ occurs quotesingle (clean_answer (lit "I don/quotesingle.ts1t know")) = false
  /\ occurs dont (clean_answer (lit "I don/quotesingle.ts1t know")) = true.
Proof.
  destruct (clean_answer_quotesingle (lit "I don/quotesingle.ts1t know") eq_refl)
    as (_ & Hno & Hdont).
  split; [reflexivity | split; [exact Hno | exact (Hdont eq_refl)]].
Defined.

(** C5, as stated, fails, in two ways.  On the answer "a: " the text
    before the colon-space substitution is the answer itself and has one
    colon-space, and the output "a:" has no colon-newline-tab: the final
    strip cuts the newline and the tab.  On an answer that is a
    colon-newline-tab followed by "x", the text has no colon-space and the
    output has one colon-newline-tab, the one that was there.  No earlier
    substitution is involved in either. *)
Lemma colon_count_differs :
  (chain1 (lit "a: ") = lit "a: "
   /\ clean_answer (lit "a: ") = lit "a:"
   /\ occurrences colon_nl_tab (clean_answer (lit "a: "))
      <> occurrences colon_space (chain1 (lit "a: ")))
  /\ (chain1 (colon_nl_tab ++ lit "x") = colon_nl_tab ++ lit "x"
      /\ clean_answer (colon_nl_tab ++ lit "x") = colon_nl_tab ++ lit "x"
      /\ occurrences colon_nl_tab (clean_answer (colon_nl_tab ++ lit "x"))
         <> occurrences colon_space (chain1 (colon_nl_tab ++ lit "x"))).
Proof.
  split; (split; [reflexivity | split; [reflexivity | discriminate]]).
Qed.

(** C5, amended: the number of colon-newline-tab in the output equals the
    number of colon-space plus the number of colon-newline-tab in the text
    before the colon-space substitution, less one when the last character
    the final strip keeps is the colon of a colon-newline-tab whose newline
    and tab the strip cuts. *)
Theorem clean_answer_colon_count (s : str) :
  (occurrences colon_nl_tab (clean_answer s)
   + if cut_by_strip (chain3 s) then 1 else 0)%nat
  = (occurrences colon_space (chain1 s) + occurrences colon_nl_tab (chain1 s))%nat.
Proof.
  rewrite clean_answer_chain, <- occurrences_strip; apply chain3_occurrences.
Qed.

(** C10: for every input string the output of the formatter contains no
    colon-space, no close-paren-space and no "/quotesingle.ts1": what one
    substitution removes, no later step brings back. *)
Theorem clean_answer_has_no_token (s : str) :
  occurs colon_space (clean_answer s) = false
  /\ occurs rparen_space (clean_answer s) = false
  /\ occurs quotesingle (clean_answer s) = false.
Proof.
  rewrite clean_answer_chain; repeat split; apply not_occurs_strip.
  - apply chain3_no_colon_space.
  - apply chain3_no_rparen_space.
  - apply chain3_no_quotesingle.
Qed.

(** ** Main results: the loader and the query handler *)

(** Scenario 5: the loader called twice in a fresh process unpickles
    once; the second call returns the object of the first and leaves the
    process as it is. *)
Example scenario_5 (c : chain) (d : disk) :
  let (r1, st1) := load_qa_chain (Some (Pickle c)) init in
  load_qa_chain d st1 = (r1, st1) /\ unpickles (log st1) = 1%nat.
Proof. split; reflexivity. Qed.

(** C6: in a process that has run the script any number of times, the
    artifact was unpickled at most once.  While the cache is empty nothing
    was unpickled and the pipeline was never called, and a call of the
    loader on a valid file opens it, unpickles it and stores the object.
    Once an object is stored, exactly one unpickling happened, the loader
    returns that object without touching the process (no storage event),
    every pipeline call so far went to that object, and the cache holds it
    through all later runs. *)
Theorem artifact_loaded_once (runs : list (disk * str)) (d : disk) :
  let st := run_all runs init in
  (unpickles (log st) <= 1)%nat
  /\ (forall a, cache st = Some a ->
        unpickles (log st) = 1%nat
        /\ load_qa_chain d st = (Return a, st)
        /\ Forall (fun ia => fst ia = art_id a) (invoked (log st))
        /\ forall more, cache (run_all more st) = Some a)
  /\ (cache st = None ->
        unpickles (log st) = 0%nat
        /\ invoked (log st) = []
        /\ forall c,
             load_qa_chain (Some (Pickle c)) st
             = (Return {| art_id := loads st; art_chain := c |},
                {| cache := Some {| art_id := loads st; art_chain := c |};
                   loads := S (loads st); calls := calls st;
                   log := log st ++ [EvOpen; EvUnpickle (loads st)] |})).
Proof.
  cbv zeta.
  pose proof (loaded_once_run_all runs init loaded_once_init) as H.
  unfold loaded_once in H.
  destruct (cache (run_all runs init)) as [a|] eqn:Hc.
  - destruct H as [[k Hk] Hinv].
    assert (Hu : unpickles (log (run_all runs init)) = 1%nat).
    { rewrite unpickles_storage, Hk, filter_app, unpickles_opens; reflexivity. }
    split; [rewrite Hu; lia|].
    split; [|discriminate].
    intros a' [= <-]; repeat split; auto.
    + now apply load_cached.
    + intros more; now apply cache_run_all.
  - destruct H as [[k Hk] Hinv].
    assert (Hu : unpickles (log (run_all runs init)) = 0%nat).
    { rewrite unpickles_storage, Hk, unpickles_opens; reflexivity. }
    split; [rewrite Hu; lia|].
    split; [discriminate|].
    intros _; repeat split; auto.
    intros c; now apply load_first.
Qed.

(** C7: on a non-empty query the script calls the answer method of the
    artifact the loader returned (the cached one) exactly once, with the
    query under the key "query", takes the "result" field of the response,
    and displays the formatter applied to that field. *)
Theorem query_handler_contract (d : disk) (q : str) (st st1 : process)
    (a : artifact) (resp : dict) (r : str) :
  q <> [] ->
  load_qa_chain d (before_load st) = (Return a, st1) ->
  chain_invoke (art_chain a) (calls st1) [("query"%string, VStr q)] = Return resp ->
  dict_get "result" resp = Some (VStr r) ->
  cache st1 = Some a
  /\ script d q st
     = (Return tt,
        after_call (at_input st1) a q
          [EvSubheader "Answer:"; EvCode (clean_answer r) "python"])
  /\ invoked (log (snd (script d q st)))
     = invoked (log st) ++ [(art_id a, [("query"%string, VStr q)])]
  /\ answers (log (snd (script d q st)))
     = answers (log st)
       ++ [EvSubheader "Answer:"; EvCode (clean_answer r) "python"].
Proof.
  intros Hq Hload Hinv Hres.
  destruct (load_effects _ _ _ _ Hload) as (Hcalls & Hi & Ha & Hcache).
  destruct (before_load_effects st) as (_ & Hi0 & Ha0).
  assert (Hs : script d q st
               = (Return tt,
                  after_call (at_input st1) a q
                    [EvSubheader "Answer:"; EvCode (clean_answer r) "python"])).
  { rewrite script_unfold, Hload.
    now apply (handle_query_answer a q (at_input st1) resp r). }
  split; [now apply Hcache|].
  split; [exact Hs|].
  rewrite Hs; cbn [snd].
  destruct (after_call_effects st1 a q
              [EvSubheader "Answer:"; EvCode (clean_answer r) "python"] eq_refl)
    as [-> ->].
  now rewrite Hi, Hi0, Ha, Ha0.
Qed.

Lemma query_handler_contract_witness :
  script (Some (Pickle (answering_chain (lit "Reason: it is large."))))
    (lit "Why Paris?") init
  = (Return tt,
     {| cache := Some {| art_id := 0;
                         art_chain := answering_chain (lit "Reason: it is large.") |};
        loads := 1; calls := 1;
        log := page_head
               ++ [EvOpen; EvUnpickle 0; EvTextInput "Enter your question:";
                   EvSpinnerEnter spinner_text;
                   EvInvoke 0 [("query"%string, VStr (lit "Why Paris?"))];
                   EvSubheader "Answer:";
                   EvCode (lit "Reason:" ++ [ch_nl; ch_tab] ++ lit "it is large.")
                          "python";
                   EvSpinnerExit] |}).
Proof.
  assert (Hq : lit "Why Paris?" <> []) by discriminate.
  destruct (query_handler_contract
              (Some (Pickle (answering_chain (lit "Reason: it is large."))))
              (lit "Why Paris?") init _ _ _ _ Hq eq_refl eq_refl eq_refl)
    as (_ & Hs & _).
  exact Hs.
Defined.

(** C8: on the empty query the handler calls nothing and draws nothing,
    and returns normally: the run of the script ends as the loader left
    the process, with the text input drawn, no pipeline call and no answer
    added; it raises only what the loader raised. *)
Theorem empty_query_idle (d : disk) (st : process) (a : artifact) :
  handle_query a [] st = (Return tt, st)
  /\ script d [] st
     = match load_qa_chain d (before_load st) with
       | (Return _, st1) => (Return tt, at_input st1)
       | (Raise e, st1) => (Raise e, st1)
       end
  /\ calls (snd (script d [] st)) = calls st
  /\ invoked (log (snd (script d [] st))) = invoked (log st)
  /\ answers (log (snd (script d [] st))) = answers (log st).
Proof.
  destruct (before_load_effects st) as (Hc0 & Hi0 & Ha0).
  split; [reflexivity|].
  rewrite script_unfold.
  destruct (load_qa_chain d (before_load st)) as [[a1|e] st1] eqn:Hload;
    destruct (load_effects _ _ _ _ Hload) as (Hc & Hi & Ha & _);
    rewrite ?handle_query_empty; cbn [snd];
    unfold at_input, with_log; cbn [calls log];
    rewrite ?invoked_app, ?answers_app; cbn [invoked answers];
    rewrite ?app_nil_r, Hc, Hc0, Hi, Hi0, Ha, Ha0; auto.
Qed.

(** C9: on a non-empty query, when the artifact raises during the call, or
    the response has no "result" field (the lookup raises KeyError), the
    script ends with that very exception: the pipeline was called once and
    not again, the spinner is taken down, and no answer is drawn. *)
Theorem invocation_failure_surfaces (d : disk) (q : str) (st st1 : process)
    (a : artifact) (e : exn) :
  q <> [] ->
  load_qa_chain d (before_load st) = (Return a, st1) ->
  (chain_invoke (art_chain a) (calls st1) [("query"%string, VStr q)] = Raise e
   \/ exists resp,
        chain_invoke (art_chain a) (calls st1) [("query"%string, VStr q)]
        = Return resp
        /\ dict_get "result" resp = None /\ e = KeyError "result") ->
  script d q st = (Raise e, after_call (at_input st1) a q [])
  /\ invoked (log (snd (script d q st)))
     = invoked (log st) ++ [(art_id a, [("query"%string, VStr q)])]
  /\ answers (log (snd (script d q st))) = answers (log st).
Proof.
  intros Hq Hload Hfail.
  destruct (load_effects _ _ _ _ Hload) as (Hcalls & Hi & Ha & _).
  destruct (before_load_effects st) as (_ & Hi0 & Ha0).
  assert (Hs : script d q st = (Raise e, after_call (at_input st1) a q [])).
  { rewrite script_unfold, Hload.
    destruct Hfail as [Hr|(resp & Hr & Hres & ->)].
    - now apply (handle_query_raise a q (at_input st1) e).
    - now apply (handle_query_no_result a q (at_input st1) resp). }
  split; [exact Hs|].
  rewrite Hs; cbn [snd].
  destruct (after_call_effects st1 a q [] eq_refl) as [-> ->].
  cbn [answers]; now rewrite app_nil_r, Hi, Hi0, Ha, Ha0.
Qed.

Lemma invocation_failure_surfaces_witness :
  fst (script (Some (Pickle (raising_chain 7))) (lit "Why?") init)
  = Raise (PipelineError 7)
  /\ fst (script (Some (Pickle silent_chain)) (lit "Why?") init)
     = Raise (KeyError "result")
  /\ answers (log (snd (script (Some (Pickle silent_chain)) (lit "Why?") init)))
     = [].
Proof.
  assert (Hq : lit "Why?" <> []) by discriminate.
  destruct (invocation_failure_surfaces
              (Some (Pickle (raising_chain 7))) (lit "Why?") init _ _
              (PipelineError 7) Hq eq_refl (or_introl eq_refl))
    as (Hs1 & _).
  destruct (invocation_failure_surfaces
              (Some (Pickle silent_chain)) (lit "Why?") init _ _
              (KeyError "result") Hq eq_refl
              (or_intror (ex_intro _ _ (conj eq_refl (conj eq_refl eq_refl)))))
    as (Hs2 & _ & Ha2).
  split; [now rewrite Hs1 | split; [now rewrite Hs2 | exact Ha2]].
Defined.

(** ** Further properties of the formatter *)

Lemma lstrip_blank (s : str) : blank s = true -> lstrip s = [].
Proof.
  induction s as [|c s IH]; [reflexivity|].
  simpl; intros H; apply andb_true_iff in H as [Hc Hs].
  rewrite Hc; auto.
Qed.

Lemma blank_In (s : str) :
  blank s = true <-> forall c, In c s -> is_space c = true.
Proof. apply forallb_forall. Qed.

Lemma blank_visible (s : str) : blank s = true <-> visible s = [].
Proof.
  induction s as [|c s IH]; [now split|].
  unfold visible, blank in *; cbn [filter forallb].
  destruct (is_space c); cbn [negb andb]; [exact IH | now split].
Qed.

Lemma visible_app (s t : str) : visible (s ++ t) = visible s ++ visible t.
Proof. apply filter_app. Qed.

(** A blank string holds no string that begins with a character that is
    not whitespace. *)
Lemma blank_not_occurs (p s : str) (a : char) (p' : str) :
  p = a :: p' -> is_space a = false -> blank s = true -> occurs p s = false.
Proof.
  intros Ep Ha Hs.
  rewrite <- (app_nil_r s), (occurs_skip_prefix p s [] a p' Ep).
  - now subst p.
  - intros Hin; apply (proj1 (blank_In s) Hs) in Hin; congruence.
Qed.

Lemma str_strip_blank (s : str) : blank s = true -> str_strip s = [].
Proof.
  intros H; rewrite str_strip_eq; unfold strip_both.
  now rewrite lstrip_blank.
Qed.

Lemma visible_strip (t : str) : visible (str_strip t) = visible t.
Proof.
  rewrite str_strip_eq; unfold strip_both.
  rewrite (lstrip_decompose t) at 2.
  rewrite (rstrip_decompose (lstrip t)) at 2.
  rewrite !visible_app.
  assert (Hl : visible (firstn (leading_spaces t) t) = []).
  { apply blank_visible, blank_In; intros c; apply leading_all_space. }
  assert (Hr : visible (rev (firstn (leading_spaces (rev (lstrip t)))
                                    (rev (lstrip t)))) = []).
  { apply blank_visible, blank_In; intros c Hc; apply in_rev in Hc.
    now apply leading_all_space in Hc. }
  now rewrite Hl, Hr, app_nil_r.
Qed.

Lemma visible_sub_colon (x : str) : visible (sub_colon x) = visible x.
Proof.
  unfold sub_colon.
  induction x as [|c x Hmiss IHx|r IHr]
    using (replace_ind colon_space colon_space_nonempty).
  - reflexivity.
  - rewrite str_replace_miss by (apply colon_space_nonempty || assumption).
    unfold visible in *; cbn [filter]; now rewrite IHx.
  - rewrite str_replace_hit by apply colon_space_nonempty.
    rewrite !visible_app, IHr; reflexivity.
Qed.

Lemma visible_sub_rparen (x : str) : visible (sub_rparen x) = visible x.
Proof.
  unfold sub_rparen.
  induction x as [|c x Hmiss IHx|r IHr]
    using (replace_ind rparen_space rparen_space_nonempty).
  - reflexivity.
  - rewrite str_replace_miss by (apply rparen_space_nonempty || assumption).
    unfold visible in *; cbn [filter]; now rewrite IHx.
  - rewrite str_replace_hit by apply rparen_space_nonempty.
    rewrite !visible_app, IHr; reflexivity.
Qed.

(** The first substitution puts an apostrophe, which is not whitespace, for
    every token: what it returns is blank only when its argument is. *)
Lemma sub_quote_blank (s : str) : blank (sub_quote s) = true -> blank s = true.
Proof.
  unfold sub_quote.
  induction s as [|c s Hmiss IHs|r IHr]
    using (replace_ind quotesingle quotesingle_nonempty).
  - reflexivity.
  - rewrite str_replace_miss by (apply quotesingle_nonempty || assumption).
    cbn [blank forallb]; intros H; apply andb_true_iff in H as [Hc Hs].
    rewrite Hc; now apply IHs.
  - rewrite str_replace_hit by apply quotesingle_nonempty.
    discriminate.
Qed.

Lemma starts_with_other_head (old : str) (o c : char) (t : str) :
  hd_error old = Some o -> o <> c -> starts_with old (c :: t) = false.
Proof.
  intros Ho Hc; destruct old as [|o' old']; [discriminate|].
  injection Ho as ->.
  destruct (starts_with (o :: old') (c :: t)) eqn:E; [|reflexivity].
  apply starts_with_cons in E as [E _]; contradiction.
Qed.

(** The scan passes a text in which the first character of [old] does not
    occur. *)
Lemma str_replace_pass (old new : str) (o : char) (x r : str) :
  hd_error old = Some o -> ~ In o x ->
  str_replace old new (x ++ r) = x ++ str_replace old new r.
Proof.
  intros Ho Hx.
  assert (Hne : old <> []) by (intros E; rewrite E in Ho; discriminate).
  induction x as [|c x IH]; [reflexivity|].
  cbn [app]; rewrite str_replace_miss, IH; auto.
  - intros Hin; apply Hx; now right.
  - apply (starts_with_other_head old o c _ Ho).
    intros E; apply Hx; now left.
Qed.

Section Commute.

Variables A A' B B' : str.
Variables a a' b b' : char.
Hypothesis hdA : hd_error A = Some a.
Hypothesis hdA' : hd_error A' = Some a'.
Hypothesis hdB : hd_error B = Some b.
Hypothesis hdB' : hd_error B' = Some b'.
Hypothesis b_A : ~ In b A.
Hypothesis b_A' : ~ In b A'.
Hypothesis b'_A : ~ In b' A.
Hypothesis a_B : ~ In a B.
Hypothesis a_B' : ~ In a B'.
Hypothesis a'_B : ~ In a' B.

Lemma A_nonempty : A <> [].
Proof. intros E; rewrite E in hdA; discriminate. Qed.

Lemma B_nonempty : B <> [].
Proof. intros E; rewrite E in hdB; discriminate. Qed.

(** Two substitutions of which neither search string, nor replacement,
    holds the first character of the other search string, and of which
    neither search string holds the first character of the other
    replacement, can be applied in either order. *)
Lemma str_replace_commute (s : str) :
  str_replace A A' (str_replace B B' s) = str_replace B B' (str_replace A A' s).
Proof.
  remember (length s) as m eqn:Hm.
  revert s Hm; induction m as [m IH] using lt_wf_ind; intros s Hm.
  destruct (starts_with A s) eqn:EA.
  - apply starts_with_iff in EA as [r ->].
    assert (Hr : (length r < m)%nat).
    { subst m; rewrite length_app.
      pose proof A_nonempty; destruct A; [contradiction | simpl; lia]. }
    rewrite (str_replace_pass B B' b A r hdB b_A).
    rewrite !(str_replace_hit A A' A_nonempty).
    rewrite (str_replace_pass B B' b A' _ hdB b_A').
    f_equal; apply (IH (length r) Hr r eq_refl).
  - destruct (starts_with B s) eqn:EB.
    + apply starts_with_iff in EB as [r ->].
      assert (Hr : (length r < m)%nat).
      { subst m; rewrite length_app.
        pose proof B_nonempty; destruct B; [contradiction | simpl; lia]. }
      rewrite (str_replace_pass A A' a B r hdA a_B).
      rewrite !(str_replace_hit B B' B_nonempty).
      rewrite (str_replace_pass A A' a B' _ hdA a_B').
      f_equal; apply (IH (length r) Hr r eq_refl).
    + destruct s as [|c r].
      * now rewrite !str_replace_nil by (apply A_nonempty || apply B_nonempty).
      * rewrite (str_replace_miss B B' B_nonempty c r EB).
        rewrite (str_replace_miss A A' A_nonempty c r EA).
        rewrite !str_replace_miss.
        -- f_equal; apply (IH (length r)); [subst m; simpl; lia | reflexivity].
        -- apply B_nonempty.
        -- destruct B as [|b0 tB]; [discriminate|].
           injection hdB as ->.
           rewrite (starts_with_replace_cons A A' a a' hdA hdA'); [exact EB| |].
           ++ intros Hin; apply a_B; now right.
           ++ intros Hin; apply a'_B; now right.
        -- apply A_nonempty.
        -- destruct A as [|a0 tA]; [discriminate|].
           injection hdA as ->.
           rewrite (starts_with_replace_cons B B' b b' hdB hdB'); [exact EA| |].
           ++ intros Hin; apply b_A; now right.
           ++ intros Hin; apply b'_A; now right.
Qed.

End Commute.

Ltac not_in_literal := let H := fresh in intros H; apply mem_In in H; discriminate.

Lemma sub_colon_quote (s : str) : sub_colon (sub_quote s) = sub_quote (sub_colon s).
Proof.
  symmetry.
  apply (str_replace_commute quotesingle apostrophe colon_space colon_nl_tab
           47 ch_apos ch_colon ch_colon eq_refl eq_refl eq_refl eq_refl);
    not_in_literal.
Qed.

Lemma sub_rparen_quote (s : str) : sub_rparen (sub_quote s) = sub_quote (sub_rparen s).
Proof.
  symmetry.
  apply (str_replace_commute quotesingle apostrophe rparen_space rparen_nl_tab
           47 ch_apos ch_rparen ch_rparen eq_refl eq_refl eq_refl eq_refl);
    not_in_literal.
Qed.

Lemma sub_rparen_colon (s : str) : sub_rparen (sub_colon s) = sub_colon (sub_rparen s).
Proof.
  symmetry.
  apply (str_replace_commute colon_space colon_nl_tab rparen_space rparen_nl_tab
           ch_colon ch_colon ch_rparen ch_rparen eq_refl eq_refl eq_refl eq_refl);
    not_in_literal.
Qed.

Lemma length_sub_colon (x : str) :
  length (sub_colon x) = (length x + occurrences colon_space x)%nat.
Proof.
  unfold sub_colon.
  induction x as [|c x Hmiss IHx|r IHr]
    using (replace_ind colon_space colon_space_nonempty).
  - reflexivity.
  - rewrite str_replace_miss by (apply colon_space_nonempty || assumption).
    rewrite occurrences_cons, Hmiss; cbn [length]; rewrite IHx; lia.
  - rewrite str_replace_hit by apply colon_space_nonempty.
    rewrite occurrences_colon_space_old, !length_app, IHr.
    cbn [length colon_space colon_nl_tab]; lia.
Qed.

Lemma occurrences_rparen_space_old (t : str) :
  occurrences rparen_space (rparen_space ++ t) = S (occurrences rparen_space t).
Proof. reflexivity. Qed.

Lemma length_sub_rparen (x : str) :
  length (sub_rparen x) = (length x + occurrences rparen_space x)%nat.
Proof.
  unfold sub_rparen.
  induction x as [|c x Hmiss IHx|r IHr]
    using (replace_ind rparen_space rparen_space_nonempty).
  - reflexivity.
  - rewrite str_replace_miss by (apply rparen_space_nonempty || assumption).
    rewrite occurrences_cons, Hmiss; cbn [length]; rewrite IHx; lia.
  - rewrite str_replace_hit by apply rparen_space_nonempty.
    rewrite occurrences_rparen_space_old, !length_app, IHr.
    cbn [length rparen_space rparen_nl_tab]; lia.
Qed.

Lemma occurrences_quotesingle_old (t : str) :
  occurrences quotesingle (quotesingle ++ t) = S (occurrences quotesingle t).
Proof. reflexivity. Qed.

Lemma length_sub_quote (s : str) :
  (length (sub_quote s) + 15 * occurrences quotesingle s)%nat = length s.
Proof.
  unfold sub_quote.
  induction s as [|c s Hmiss IHs|r IHr]
    using (replace_ind quotesingle quotesingle_nonempty).
  - reflexivity.
  - rewrite str_replace_miss by (apply quotesingle_nonempty || assumption).
    rewrite occurrences_cons, Hmiss; cbn [length]; lia.
  - rewrite str_replace_hit by apply quotesingle_nonempty.
    rewrite occurrences_quotesingle_old, !length_app.
    change (length quotesingle) with 16%nat.
    change (length apostrophe) with 1%nat; lia.
Qed.

Lemma length_str_strip (t : str) : (length (str_strip t) <= length t)%nat.
Proof.
  destruct (str_strip_piece t) as (l & r & E).
  rewrite E at 2; rewrite !length_app; lia.
Qed.

(** X1: the output of the formatter neither begins nor ends with
    whitespace. *)
Theorem clean_answer_stripped (s : str) :
  hd_space (clean_answer s) = false /\ ends_space (clean_answer s) = false.
Proof.
  rewrite clean_answer_chain, str_strip_eq; unfold strip_both; split.
  - rewrite rstrip_firstn; apply hd_space_firstn, lstrip_hd.
  - apply rstrip_ends.
Qed.

Lemma visible_clean_answer (s : str) :
  visible (clean_answer s) = visible (sub_quote s).
Proof.
  unfold clean_answer; rewrite visible_strip.
  fold (sub_quote s); fold (sub_colon (sub_quote s)).
  fold (sub_rparen (sub_colon (sub_quote s))).
  now rewrite visible_sub_rparen, visible_sub_colon.
Qed.

(** X3: behind the first substitution the formatter changes whitespace
    only: the characters of the output that are not whitespace are those
    of the text with the tokens replaced, in the same order; on an answer
    without the token they are those of the answer. *)
Theorem clean_answer_visible (s : str) :
  visible (clean_answer s) = visible (sub_quote s)
  /\ (occurs quotesingle s = false -> visible (clean_answer s) = visible s).
Proof.
  pose proof (visible_clean_answer s) as H.
  split; [exact H|].
  intros Hq; rewrite H; unfold sub_quote.
  now rewrite (str_replace_absent quotesingle apostrophe quotesingle_nonempty s Hq).
Qed.

(** X2: the output is empty exactly when the answer is empty or holds
    whitespace only. *)
Theorem clean_answer_empty_iff_blank (s : str) :
  clean_answer s = [] <-> blank s = true.
Proof.
  split.
  - intros H.
    assert (Hv : visible (sub_quote s) = []).
    { rewrite <- (visible_clean_answer s), H; reflexivity. }
    apply sub_quote_blank, blank_visible, Hv.
  - intros H.
    rewrite clean_answer_fixed.
    + now apply str_strip_blank.
    + now apply (blank_not_occurs quotesingle s 47 _ eq_refl).
    + now apply (blank_not_occurs colon_space s ch_colon _ eq_refl).
    + now apply (blank_not_occurs rparen_space s ch_rparen _ eq_refl).
Qed.

(** X4: every token replaced shortens the text by fifteen characters, every
    colon-space and every close-paren-space replaced lengthens it by one,
    and the strip does not lengthen it. *)
Theorem clean_answer_length (s : str) :
  (length (chain3 s) + 15 * occurrences quotesingle s)%nat
  = (length s + occurrences colon_space (chain1 s)
     + occurrences rparen_space (chain2 s))%nat
  /\ (length (clean_answer s) <= length (chain3 s))%nat.
Proof.
  split.
  - unfold chain3, chain2, chain1.
    fold (sub_quote s); fold (sub_colon (sub_quote s)).
    fold (sub_rparen (sub_colon (sub_quote s))).
    rewrite length_sub_rparen, length_sub_colon.
    pose proof (length_sub_quote s); lia.
  - rewrite clean_answer_chain; apply length_str_strip.
Qed.

(** X5: the three substitutions can be applied in any order: each of the
    five other orders, followed by the strip, gives what the script's order
    gives. *)
Theorem clean_answer_any_order (s : str) :
  str_strip (sub_colon (sub_rparen (sub_quote s))) = clean_answer s
  /\ str_strip (sub_rparen (sub_quote (sub_colon s))) = clean_answer s
  /\ str_strip (sub_quote (sub_rparen (sub_colon s))) = clean_answer s
  /\ str_strip (sub_colon (sub_quote (sub_rparen s))) = clean_answer s
  /\ str_strip (sub_quote (sub_colon (sub_rparen s))) = clean_answer s.
Proof.
  assert (H0 : clean_answer s = str_strip (sub_rparen (sub_colon (sub_quote s))))
    by reflexivity.
  rewrite H0; repeat split; f_equal.
  - now rewrite sub_rparen_colon.
  - now rewrite sub_colon_quote.
  - now rewrite <- sub_rparen_quote, sub_colon_quote.
  - now rewrite <- sub_rparen_quote, sub_rparen_colon.
  - now rewrite <- sub_colon_quote, <- sub_rparen_quote, sub_rparen_colon.
Qed.

(** ** The strip can come first *)

Lemma ends_space_app (x y : str) :
  y <> [] -> ends_space (x ++ y) = ends_space y.
Proof.
  intros Hy; induction x as [|c x IH]; [reflexivity|].
  cbn [app ends_space]; rewrite IH.
  destruct (x ++ y) eqn:E; [|reflexivity].
  apply app_eq_nil in E as [_ E]; contradiction.
Qed.

Lemma ends_space_cons (c : char) (x : str) :
  x <> [] -> ends_space (c :: x) = ends_space x.
Proof. intros Hx; apply (ends_space_app [c] x Hx). Qed.

Lemma blank_ends (y : str) : y <> [] -> blank y = true -> ends_space y = true.
Proof.
  intros Hy Hb; rewrite <- (rev_involutive y), ends_space_rev.
  destruct (rev y) as [|c z] eqn:E.
  - apply (f_equal (@rev char)) in E; rewrite rev_involutive in E.
    contradiction.
  - apply (proj1 (blank_In y) Hb), in_rev; rewrite E; now left.
Qed.

Lemma blank_app (x y : str) :
  blank (x ++ y) = blank x && blank y.
Proof. apply forallb_app. Qed.

Lemma blank_rev (x : str) : blank x = true -> blank (rev x) = true.
Proof.
  rewrite !blank_In; intros H c Hc; apply H; now apply in_rev.
Qed.

Lemma lstrip_blank_app (l y : str) : blank l = true -> lstrip (l ++ y) = lstrip y.
Proof.
  induction l as [|c l IH]; [reflexivity|].
  cbn [blank forallb app lstrip]; intros H.
  apply andb_true_iff in H as [Hc Hl]; rewrite Hc; auto.
Qed.

(** A text that neither begins nor ends with whitespace is what the strip
    finds between two runs of whitespace. *)
Lemma str_strip_tight (l x r : str) :
  blank l = true -> blank r = true ->
  hd_space x = false -> ends_space x = false ->
  str_strip (l ++ x ++ r) = x.
Proof.
  intros Hl Hr Hh He; rewrite str_strip_eq; unfold strip_both, rstrip.
  rewrite (lstrip_blank_app l _ Hl).
  destruct x as [|c x].
  - cbn [app]; now rewrite (lstrip_blank r Hr).
  - rewrite (lstrip_fixed ((c :: x) ++ r)) by exact Hh.
    rewrite rev_app_distr, (lstrip_blank_app _ _ (blank_rev r Hr)).
    rewrite lstrip_fixed, rev_involutive; [reflexivity|].
    now rewrite <- ends_space_rev, rev_involutive.
Qed.

Lemma str_strip_decompose (t : str) :
  exists l r,
    t = l ++ str_strip t ++ r /\ blank l = true /\ blank r = true.
Proof.
  exists (firstn (leading_spaces t) t),
         (rev (firstn (leading_spaces (rev (lstrip t))) (rev (lstrip t)))).
  rewrite str_strip_eq; unfold strip_both.
  rewrite <- rstrip_decompose, <- lstrip_decompose.
  repeat split.
  - apply blank_In; intros c; apply leading_all_space.
  - apply blank_rev, blank_In; intros c; apply leading_all_space.
Qed.

Section ReplaceStrip.

Variables old new : str.
Variables o n : char.
Hypothesis old_hd : hd_error old = Some o.
Hypothesis new_hd : hd_error new = Some n.
Hypothesis o_visible : is_space o = false.
Hypothesis n_visible : is_space n = false.
Hypothesis new_end : ends_space old = true \/ ends_space new = false.
Hypothesis new_split :
  forall x y, old = x ++ y -> x <> [] -> y <> [] -> blank y = true ->
  exists w, new = x ++ w /\ blank w = true.

Let f := str_replace old new.

Lemma strip_old_nonempty : old <> [].
Proof. intros E; rewrite E in old_hd; discriminate. Qed.

Lemma replace_blank (r : str) : blank r = true -> f r = r.
Proof.
  intros Hr; apply (str_replace_absent old new strip_old_nonempty).
  destruct old as [|o' old'] eqn:E; [discriminate|].
  injection old_hd as ->.
  now apply (blank_not_occurs (o :: old') r o old' eq_refl).
Qed.

Lemma replace_nonempty (m : str) : m <> [] -> f m <> [].
Proof.
  intros Hm; unfold f; destruct m as [|c m]; [contradiction|].
  destruct (starts_with old (c :: m)) eqn:E.
  - rewrite (str_replace_found old new strip_old_nonempty _ E).
    destruct new; [discriminate | discriminate].
  - rewrite (str_replace_miss old new strip_old_nonempty c m E); discriminate.
Qed.

Lemma replace_hd (m : str) : hd_space m = false -> hd_space (f m) = false.
Proof.
  intros Hm; unfold f; destruct m as [|c m].
  - now rewrite str_replace_nil by apply strip_old_nonempty.
  - destruct (starts_with old (c :: m)) eqn:E.
    + rewrite (str_replace_found old new strip_old_nonempty _ E).
      destruct new as [|n' new']; [discriminate|].
      injection new_hd as ->; exact n_visible.
    + now rewrite (str_replace_miss old new strip_old_nonempty c m E).
Qed.

Lemma replace_leading (l x : str) : blank l = true -> f (l ++ x) = l ++ f x.
Proof.
  intros Hl; apply (str_replace_pass old new o l x old_hd).
  intros Hin; apply (proj1 (blank_In l) Hl) in Hin; congruence.
Qed.

(** Behind a text that does not end in whitespace, whitespace stays
    whitespace: a token that reaches into it is replaced by the text it
    began with and whitespace. *)
Lemma replace_trailing (r : str) :
  blank r = true ->
  forall m, ends_space m = false ->
  ends_space (f m) = false
  /\ exists r', blank r' = true /\ f (m ++ r) = f m ++ r'.
Proof.
  intros Hr m; unfold f.
  induction m as [|c m Hmiss IHm|m IHm]
    using (replace_ind old strip_old_nonempty); intros Hm.
  - rewrite str_replace_nil by apply strip_old_nonempty.
    split; [reflexivity|].
    exists r; split; [exact Hr | now apply replace_blank].
  - rewrite (str_replace_miss old new strip_old_nonempty c m Hmiss).
    destruct (starts_with old ((c :: m) ++ r)) eqn:E.
    + assert (Hlen : (length (c :: m) < length old)%nat).
      { destruct (Nat.le_gt_cases (length old) (length (c :: m))) as [Hle|Hgt];
          [|exact Hgt].
        apply (starts_with_shorter old (c :: m) r) in E; congruence. }
      pose proof (starts_with_longer old (c :: m) r E (Nat.lt_le_incl _ _ Hlen))
        as Hpre.
      apply starts_with_iff in Hpre as [y Hy].
      apply starts_with_iff in E as [r2 E].
      assert (Hyr : r = y ++ r2).
      { rewrite Hy, <- app_assoc in E; now apply app_inv_head in E. }
      assert (Hy0 : y <> []).
      { intros ->; rewrite app_nil_r in Hy; rewrite Hy in Hlen; lia. }
      rewrite Hyr, blank_app in Hr; apply andb_true_iff in Hr as [Hby Hbr2].
      destruct (new_split (c :: m) y Hy) as (w & Hw & Hbw); auto; [discriminate|].
      assert (Hfm : str_replace old new m = m).
      { destruct m as [|d m]; [now apply str_replace_nil, strip_old_nonempty|].
        apply (str_replace_absent old new strip_old_nonempty).
        destruct (occurs old (d :: m)) eqn:Ho; [|reflexivity].
        apply occurs_iff in Ho as (l1 & l2 & Ho).
        apply (f_equal (@length char)) in Ho.
        rewrite !length_app in Ho; cbn [length] in Hlen, Ho; lia. }
      rewrite Hfm; split; [exact Hm|].
      exists (w ++ r2); split.
      * now rewrite blank_app, Hbw, Hbr2.
      * rewrite Hyr, app_assoc, <- Hy.
        rewrite (str_replace_hit old new strip_old_nonempty).
        change (str_replace old new r2) with (f r2).
        rewrite (replace_blank r2 Hbr2), Hw, <- app_assoc; reflexivity.
    + cbn [app] in E |- *.
      rewrite (str_replace_miss old new strip_old_nonempty c (m ++ r) E).
      destruct m as [|d m].
      * rewrite str_replace_nil by apply strip_old_nonempty.
        split; [exact Hm|].
        exists r; split; [exact Hr|].
        cbn [app]; f_equal; now apply replace_blank.
      * assert (Hdm : d :: m <> []) by discriminate.
        rewrite (ends_space_cons c _ Hdm) in Hm.
        destruct (IHm Hm) as (He & r' & Hbr' & Hf).
        split.
        -- rewrite ends_space_cons; [exact He|].
           now apply replace_nonempty.
        -- exists r'; split; [exact Hbr'|].
           now rewrite Hf.
  - rewrite <- app_assoc, !(str_replace_hit old new strip_old_nonempty).
    destruct m as [|d m].
    + rewrite app_nil_r in Hm.
      rewrite str_replace_nil by apply strip_old_nonempty.
      rewrite app_nil_r; cbn [app]; split.
      * destruct new_end as [Ho|Hn]; [congruence | exact Hn].
      * exists r; split; [exact Hr|].
        f_equal; now apply replace_blank.
    + assert (Hdm : d :: m <> []) by discriminate.
      rewrite (ends_space_app old _ Hdm) in Hm.
      destruct (IHm Hm) as (He & r' & Hbr' & Hf).
      split.
      * rewrite ends_space_app; [exact He|].
        now apply replace_nonempty.
      * exists r'; split; [exact Hbr'|].
        now rewrite Hf, app_assoc.
Qed.

(** The substitution and the strip can be applied in either order. *)
Lemma str_strip_replace (t : str) : str_strip (f t) = f (str_strip t).
Proof.
  destruct (str_strip_decompose t) as (l & r & Ht & Hl & Hr).
  assert (Hh : hd_space (str_strip t) = false).
  { rewrite str_strip_eq; unfold strip_both.
    rewrite rstrip_firstn; apply hd_space_firstn, lstrip_hd. }
  assert (He : ends_space (str_strip t) = false).
  { rewrite str_strip_eq; unfold strip_both; apply rstrip_ends. }
  destruct (replace_trailing r Hr (str_strip t) He) as (He' & r' & Hr' & Hf).
  rewrite Ht at 1.
  rewrite (replace_leading l _ Hl), Hf.
  apply str_strip_tight; auto.
  now apply replace_hd.
Qed.

End ReplaceStrip.

Lemma pair_split (a b : char) (x y : str) (w : str) :
  [a; b] = x ++ y -> x <> [] -> y <> [] -> x = [a] /\ y = [b].
Proof.
  intros E Hx Hy.
  destruct x as [|c1 [|c2 x]]; [contradiction| |].
  - injection E as -> <-; now split.
  - injection E as -> -> E.
    symmetry in E; apply app_eq_nil in E as [_ E]; contradiction.
Qed.

Lemma str_strip_sub_quote (t : str) :
  str_strip (sub_quote t) = sub_quote (str_strip t).
Proof.
  apply (str_strip_replace quotesingle apostrophe 47 ch_apos eq_refl eq_refl
           eq_refl eq_refl (or_intror eq_refl)).
  intros x y E Hx Hy Hb; exfalso.
  assert (He : ends_space quotesingle = true)
    by (rewrite E, (ends_space_app x y Hy); now apply blank_ends).
  discriminate He.
Qed.

Lemma str_strip_sub_colon (t : str) :
  str_strip (sub_colon t) = sub_colon (str_strip t).
Proof.
  apply (str_strip_replace colon_space colon_nl_tab ch_colon ch_colon eq_refl
           eq_refl eq_refl eq_refl (or_introl eq_refl)).
  intros x y E Hx Hy Hb.
  destruct (pair_split ch_colon ch_space x y [] E Hx Hy) as [-> ->].
  now exists [ch_nl; ch_tab].
Qed.

Lemma str_strip_sub_rparen (t : str) :
  str_strip (sub_rparen t) = sub_rparen (str_strip t).
Proof.
  apply (str_strip_replace rparen_space rparen_nl_tab ch_rparen ch_rparen
           eq_refl eq_refl eq_refl eq_refl (or_introl eq_refl)).
  intros x y E Hx Hy Hb.
  destruct (pair_split ch_rparen ch_space x y [] E Hx Hy) as [-> ->].
  now exists [ch_nl; ch_tab].
Qed.

(** X6: the strip can come first: the three substitutions applied to the
    stripped answer give the output of the formatter, so what they return
    on a stripped text needs no strip. *)
Theorem clean_answer_strip_first (s : str) :
  clean_answer s = sub_rparen (sub_colon (sub_quote (str_strip s))).
Proof.
  change (clean_answer s)
    with (str_strip (sub_rparen (sub_colon (sub_quote s)))).
  now rewrite str_strip_sub_rparen, str_strip_sub_colon, str_strip_sub_quote.
Qed.

(** ** Further properties of the script *)

Lemma handle_query_not_str (a : artifact) (q : str) (st : process)
    (resp : dict) :
  q <> [] ->
  chain_invoke (art_chain a) (calls st) (query_arg q) = Return resp ->
  dict_get "result" resp = Some VOther ->
  handle_query a q st = (Raise (AttributeError "replace"), after_call st a q []).
Proof.
  intros Hq Hinv Hres.
  destruct q as [|c q]; [contradiction|].
  unfold query_arg in Hinv.
  run_handler; rewrite Hinv, Hres; cbn [cache loads calls log snd].
  unfold after_call; f_equal; f_equal.
  now rewrite <- !app_assoc.
Qed.

(** On a non-empty query the handler calls the pipeline once and draws an
    answer or nothing. *)
Lemma handle_query_shape (a : artifact) (q : str) (st : process) :
  q <> [] ->
  exists evs,
    snd (handle_query a q st) = after_call st a q evs
    /\ (evs = [] \/ exists r, evs = drawn_answer r).
Proof.
  intros Hq.
  destruct (chain_invoke (art_chain a) (calls st) (query_arg q)) as [resp|e] eqn:E.
  - destruct (dict_get "result" resp) as [[r|]|] eqn:R.
    + rewrite (handle_query_answer a q st resp r Hq E R).
      eexists; split; [reflexivity | right; now exists r].
    + rewrite (handle_query_not_str a q st resp Hq E R).
      exists []; split; [reflexivity | now left].
    + rewrite (handle_query_no_result a q st resp Hq E R).
      exists []; split; [reflexivity | now left].
  - rewrite (handle_query_raise a q st e Hq E).
    exists []; split; [reflexivity | now left].
Qed.

(** What the loader adds to the log. *)
Lemma load_log (d : disk) (st st1 : process) (r : outcome artifact) :
  load_qa_chain d st = (r, st1) ->
  exists lev,
    log st1 = log st ++ lev
    /\ (lev = [] \/ lev = [EvOpen] \/ lev = [EvOpen; EvUnpickle (loads st)]).
Proof.
  unfold load_qa_chain, cache_resource.
  destruct (cache st) as [a0|] eqn:Hc.
  - intros [= <- <-]; exists []; rewrite app_nil_r; auto.
  - destruct d as [[|c]|];
      unfold load_qa_chain_body, open_rb, pickle_load, bind, emit, ret, raise;
      cbn [cache loads calls log]; intros [= <- <-]; cbn [log].
    + exists [EvOpen]; auto.
    + exists [EvOpen; EvUnpickle (loads st)]; rewrite <- app_assoc; auto.
    + exists []; rewrite app_nil_r; auto.
Qed.

Lemma code_blocks_app (l l' : list event) :
  code_blocks (l ++ l') = code_blocks l ++ code_blocks l'.
Proof.
  induction l as [|e l IH]; [reflexivity|].
  destruct e; cbn [app code_blocks]; rewrite IH; reflexivity.
Qed.

Lemma spinner_up_app (u : bool) (l l' : list event) :
  spinner_up u (l ++ l')
  = match spinner_up u l with
    | Some u' => spinner_up u' l'
    | None => None
    end.
Proof.
  revert u; induction l as [|e l IH]; intros u; [reflexivity|].
  destruct e, u; cbn [app spinner_up]; auto.
Qed.

(** What one run of the script adds to the log: the spinner is down at the
    end as at the start, the pipeline is called with the non-empty query
    under "query" only, and a code block holds an output of the formatter,
    as python. *)
Lemma rerun_added (st : process) (d : disk) (q : str) :
  exists evs,
    log (rerun st (d, q)) = log st ++ evs
    /\ spinner_up false evs = Some false
    /\ Forall (fun ia => q <> [] /\ snd ia = query_arg q) (invoked evs)
    /\ Forall (fun bl => snd bl = "python"%string
                         /\ exists r, fst bl = clean_answer r)
              (code_blocks evs).
Proof.
  unfold rerun; cbn [fst snd]; rewrite script_unfold.
  destruct (load_qa_chain d (before_load st)) as [[a|e] st1] eqn:Hload;
    destruct (load_log _ _ _ _ Hload) as (lev & Hlog & Hlev);
    unfold before_load, with_log in Hlog; cbn [log] in Hlog.
  - destruct q as [|c q].
    + exists (page_head ++ lev ++ [EvTextInput "Enter your question:"]).
      rewrite handle_query_empty; unfold at_input, with_log; cbn [snd log].
      rewrite Hlog, <- !app_assoc; split; [reflexivity|].
      destruct Hlev as [-> | [-> | ->]]; cbn; repeat split; constructor.
    + set (q' := c :: q).
      assert (Hq : q' <> []) by discriminate.
      destruct (handle_query_shape a q' (at_input st1) Hq) as (hev & Hsnd & Hhev).
      rewrite Hsnd.
      exists (page_head ++ lev
              ++ [EvTextInput "Enter your question:";
                  EvSpinnerEnter spinner_text;
                  EvInvoke (art_id a) (query_arg q')]
              ++ hev ++ [EvSpinnerExit]).
      unfold after_call, at_input, with_log; cbn [snd log].
      rewrite Hlog, <- !app_assoc; split; [reflexivity|].
      destruct Hhev as [-> | [r ->]]; destruct Hlev as [-> | [-> | ->]];
        cbn; repeat split; repeat constructor; auto; try discriminate;
        now exists r.
  - exists (page_head ++ lev); cbn [snd].
    rewrite Hlog, <- !app_assoc; split; [reflexivity|].
    destruct Hlev as [-> | [-> | ->]]; cbn; repeat split; constructor.
Qed.

Lemma run_all_cons (r : disk * str) (runs : list (disk * str)) (st : process) :
  run_all (r :: runs) st = run_all runs (rerun st r).
Proof. reflexivity. Qed.

(** X7: whatever the runs, the spinner is down when a run has ended, also
    when the pipeline raised; it is never put up twice nor taken down when
    it is not up. *)
Theorem spinner_always_taken_down (runs : list (disk * str)) :
  spinner_up false (log (run_all runs init)) = Some false.
Proof.
  assert (H : forall st, spinner_up false (log st) = Some false ->
                         spinner_up false (log (run_all runs st)) = Some false).
  { induction runs as [|[d q] runs IH]; intros st Hst; [exact Hst|].
    rewrite run_all_cons; apply IH.
    destruct (rerun_added st d q) as (evs & -> & Hsp & _).
    now rewrite spinner_up_app, Hst. }
  now apply H.
Qed.

(** X8: the pipeline is only ever called with a dict that holds the one
    key "query" with a non-empty string. *)
Theorem pipeline_called_with_query_only (runs : list (disk * str)) :
  Forall (fun ia => exists q, q <> [] /\ snd ia = [("query"%string, VStr q)])
         (invoked (log (run_all runs init))).
Proof.
  assert (H : forall st,
             Forall (fun ia => exists q, q <> [] /\ snd ia = query_arg q)
                    (invoked (log st)) ->
             Forall (fun ia => exists q, q <> [] /\ snd ia = query_arg q)
                    (invoked (log (run_all runs st)))).
  { induction runs as [|[d q] runs IH]; intros st Hst; [exact Hst|].
    rewrite run_all_cons; apply IH.
    destruct (rerun_added st d q) as (evs & -> & _ & Hinv & _).
    rewrite invoked_app; apply Forall_app; split; [exact Hst|].
    eapply Forall_impl; [|exact Hinv].
    intros ia Hia; now exists q. }
  apply H; constructor.
Qed.

(** X9: every code block the page has ever shown is marked as python and
    holds an output of the formatter: it contains no colon-space, no
    close-paren-space and no "/quotesingle.ts1", and neither begins nor
    ends with whitespace. *)
Theorem code_blocks_are_formatted (runs : list (disk * str)) :
  Forall (fun bl =>
            snd bl = "python"%string
            /\ (exists r, fst bl = clean_answer r)
            /\ occurs colon_space (fst bl) = false
            /\ occurs rparen_space (fst bl) = false
            /\ occurs quotesingle (fst bl) = false
            /\ hd_space (fst bl) = false
            /\ ends_space (fst bl) = false)
         (code_blocks (log (run_all runs init))).
Proof.
  assert (H : forall st,
             Forall (fun bl => snd bl = "python"%string
                               /\ exists r, fst bl = clean_answer r)
                    (code_blocks (log st)) ->
             Forall (fun bl => snd bl = "python"%string
                               /\ exists r, fst bl = clean_answer r)
                    (code_blocks (log (run_all runs st)))).
  { induction runs as [|[d q] runs IH]; intros st Hst; [exact Hst|].
    rewrite run_all_cons; apply IH.
    destruct (rerun_added st d q) as (evs & -> & _ & _ & Hcode).
    rewrite code_blocks_app; apply Forall_app; now split. }
  eapply Forall_impl; [|apply H; constructor].
  intros [b lang] [Hlang [r Hr]]; cbn [fst snd] in *; subst b.
  destruct (clean_answer_clean r) as (Hq & Hc & Hp).
  repeat split; auto.
  - now exists r.
  - rewrite clean_answer_chain, str_strip_eq; unfold strip_both.
    rewrite rstrip_firstn; apply hd_space_firstn, lstrip_hd.
  - rewrite clean_answer_chain, str_strip_eq; apply rstrip_ends.
Qed.

(** With the artifact in the cache, a run calls the pipeline once when the
    query is not empty and not at all when it is. *)
Lemma rerun_cached_invoked (st : process) (a : artifact) (d : disk) (q : str) :
  cache st = Some a ->
  cache (rerun st (d, q)) = Some a
  /\ invoked (log (rerun st (d, q)))
     = invoked (log st) ++ (if truthy q then [(art_id a, query_arg q)] else []).
Proof.
  intros Hc; unfold rerun; cbn [fst snd].
  rewrite (script_cached d q st a Hc).
  set (st0 := with_log st _).
  destruct q as [|c q].
  - rewrite handle_query_empty; cbn [snd truthy]; unfold st0, with_log, page_head.
    cbn [cache log]; rewrite !invoked_app; cbn [invoked].
    now rewrite !app_nil_r.
  - set (q' := c :: q).
    assert (Hq : q' <> []) by discriminate.
    destruct (handle_query_shape a q' st0 Hq) as (hev & Hsnd & Hhev).
    rewrite Hsnd; unfold after_call, st0, with_log, page_head.
    cbn [cache log truthy q']; split; [exact Hc|].
    rewrite !invoked_app; cbn [invoked app].
    destruct Hhev as [-> | [r ->]]; cbn [invoked drawn_answer app];
      now rewrite !app_nil_r.
Qed.

Lemma run_all_cached_invoked (runs : list (disk * str)) (st : process)
    (a : artifact) :
  cache st = Some a ->
  invoked (log (run_all runs st))
  = invoked (log st)
    ++ map (fun q => (art_id a, query_arg q)) (filter truthy (map snd runs)).
Proof.
  revert st; induction runs as [|[d q] runs IH]; intros st Hc.
  - cbn; now rewrite app_nil_r.
  - rewrite run_all_cons.
    destruct (rerun_cached_invoked st a d q Hc) as [Hc' Hi].
    rewrite (IH _ Hc'), Hi, <- app_assoc; f_equal.
    cbn [map snd filter]; destruct (truthy q); reflexivity.
Qed.

(** The first run on a valid file: the artifact is unpickled and cached
    whatever the query, and called once when the query is not empty. *)
Lemma rerun_first_invoked (st : process) (c : chain) (q : str) :
  cache st = None ->
  cache (rerun st (Some (Pickle c), q))
  = Some {| art_id := loads st; art_chain := c |}
  /\ invoked (log (rerun st (Some (Pickle c), q)))
     = invoked (log st) ++ (if truthy q then [(loads st, query_arg q)] else []).
Proof.
  intros Hc; unfold rerun; cbn [fst snd].
  rewrite script_unfold.
  assert (Hc0 : cache (before_load st) = None) by exact Hc.
  rewrite (load_first c (before_load st) Hc0).
  set (a := {| art_id := loads (before_load st); art_chain := c |}).
  set (st1 := at_input _).
  destruct q as [|ch q].
  - rewrite handle_query_empty; cbn [snd truthy].
    unfold st1, at_input, with_log, before_load, with_log, page_head.
    cbn [cache log loads]; rewrite !invoked_app; cbn [invoked].
    now rewrite !app_nil_r.
  - set (q' := ch :: q).
    assert (Hq : q' <> []) by discriminate.
    destruct (handle_query_shape a q' st1 Hq) as (hev & Hsnd & Hhev).
    rewrite Hsnd; unfold after_call, st1, at_input, with_log, before_load,
      with_log, page_head.
    cbn [cache log loads truthy q' art_id a]; split; [reflexivity|].
    rewrite !invoked_app; cbn [invoked app].
    destruct Hhev as [-> | [r ->]]; cbn [invoked drawn_answer app];
      now rewrite !app_nil_r.
Qed.

(** X10: answers are not cached: with a valid file in place the pipeline is
    called once for every non-empty query, in the order of the runs, also
    when a query comes again, and always on the one object unpickled; for
    empty queries it is not called. *)
Theorem one_call_per_question (c : chain) (queries : list str) :
  invoked (log (run_all (map (fun q => (Some (Pickle c), q)) queries) init))
  = map (fun q => (0%nat, [("query"%string, VStr q)])) (filter truthy queries).
Proof.
  destruct queries as [|q queries]; [reflexivity|].
  cbn [map]; rewrite run_all_cons.
  destruct (rerun_first_invoked init c q eq_refl) as [Hc Hi].
  rewrite (run_all_cached_invoked _ _ _ Hc), Hi.
  rewrite map_map; cbn [snd art_id init loads log invoked app].
  rewrite map_id.
  cbn [filter]; destruct (truthy q); reflexivity.
Qed.




(** X12: on a non-empty query, when the "result" of the response is not a
    string (an object without a replace method), the script ends with
    AttributeError after the one call of the pipeline, and draws no
    answer. *)
Theorem non_string_result_raises (d : disk) (q : str) (st st1 : process)
    (a : artifact) (resp : dict) :
  q <> [] ->
  load_qa_chain d (before_load st) = (Return a, st1) ->
  chain_invoke (art_chain a) (calls st1) [("query"%string, VStr q)] = Return resp ->
  dict_get "result" resp = Some VOther ->
  script d q st
  = (Raise (AttributeError "replace"), after_call (at_input st1) a q [])
  /\ invoked (log (snd (script d q st)))
     = invoked (log st) ++ [(art_id a, [("query"%string, VStr q)])]
  /\ answers (log (snd (script d q st))) = answers (log st).
Proof.
  intros Hq Hload Hinv Hres.
  destruct (load_effects _ _ _ _ Hload) as (Hcalls & Hi & Ha & _).
  destruct (before_load_effects st) as (_ & Hi0 & Ha0).
  assert (Hs : script d q st
               = (Raise (AttributeError "replace"),
                  after_call (at_input st1) a q [])).
  { rewrite script_unfold, Hload.
    now apply (handle_query_not_str a q (at_input st1) resp). }
  split; [exact Hs|].
  rewrite Hs; cbn [snd].
  destruct (after_call_effects st1 a q [] eq_refl) as [-> ->].
  cbn [answers]; now rewrite app_nil_r, Hi, Hi0, Ha, Ha0.
Qed.

Lemma non_string_result_raises_witness :
  fst (script (Some (Pickle odd_chain)) (lit "Why?") init)
  = Raise (AttributeError "replace")
  /\ answers (log (snd (script (Some (Pickle odd_chain)) (lit "Why?") init))) = [].
Proof.
  assert (Hq : lit "Why?" <> []) by discriminate.
  destruct (non_string_result_raises
              (Some (Pickle odd_chain)) (lit "Why?") init _ _ _ Hq eq_refl
              eq_refl eq_refl)
    as (Hs & _ & Ha).
  split; [now rewrite Hs | exact Ha].
Defined.
